(** * Consanguinity gramplet: the formatter [consformatter.py]

    A shallow embedding of [SimpleStringBuffer] and [ConsFormatter], and of
    the pedigree engine the formatter consumes, with the properties of the
    specification stated and proved over them.

    Conventions.
    - A Python [str] is a [string]; [s1 + s2] is [s1 ++ s2].
    - A Python [int] used as an ancestor number is a [positive]: the binary
      numbering of ancestors is the one of [positive] itself, the father of
      [n] being [n~0] (2n) and the mother [n~1] (2n+1).  Other integers
      are in [Z].
    - A function that can raise returns a [result]; the exception is kept.
    - A [dict] iterated in insertion order is an association list
      ([pydict]); a [dict] whose keys are only looked up or sorted is a
      [gmap]. *)

From Stdlib Require Import ZArith String Ascii List Lia.
From stdpp Require Import base option list gmap strings sorting pretty.

Local Open Scope string_scope.

(** ** Characters that need an escape in a Python literal *)

Definition chr (n : nat) : string := String (ascii_of_nat n) EmptyString.
Definition NL : string := chr 10.      (* "\n" *)
Definition TAB : string := chr 9.      (* "\t" *)
Definition DQ : string := chr 34.      (* the double quote *)

(** [''.join(l)] *)
Definition join (l : list string) : string := String.concat EmptyString l.

(** ** Exceptions *)

Inductive exn : Type :=
  | AttributeError     (* a method called on [None] *)
  | KeyError           (* [d[k]] with [k] not in [d] *)
  | HandleError        (* the database knows no such handle *)
  | UnboundLocalError. (* a local read before it was assigned *)

Definition result (A : Type) : Type := exn + A.

Definition ok {A} (a : A) : result A := inr a.
Definition raise {A} (e : exn) : result A := inl e.

#[global] Instance result_ret : MRet result := λ A a, inr a.
#[global] Instance result_bind : MBind result := λ A B k m,
  match m with
  | inl e => inl e
  | inr a => k a
  end.

Definition of_option {A} (e : exn) (o : option A) : result A :=
  match o with
  | Some a => ok a
  | None => raise e
  end.

(** ** Dictionaries iterated in insertion order *)

Definition pydict (K V : Type) : Type := list (K * V).

Definition keys {K V} (d : pydict K V) : list K := d.*1.

Fixpoint getitem {K V} `{EqDecision K} (d : pydict K V) (k : K) : result V :=
  match d with
  | [] => raise KeyError
  | (k', v) :: d' => if decide (k = k') then ok v else getitem d' k
  end.

(** * SimpleStringBuffer *)

Module SimpleStringBuffer.

(** The contents of the [buffer] slot: the Python list of the pieces. *)
Definition contents : Type := list string.

(** [if string:] is true of a string that is given and not empty. *)
Definition truthy (string : option string) : bool :=
  match string with
  | Some (String _ _) => true
  | _ => false
  end.

Definition add (self : contents) (string : string) : contents :=
  (self ++ [string])%list.

Definition init (string : option string) : contents :=
  let buffer := [] in
  match string with
  | Some s => if truthy string then add buffer s else buffer
  | None => buffer
  end.

Definition str (self : contents) : string := join self.

(** Buffers are objects: a program holds references to them, and several
    names can refer to one buffer.  The store maps the identity of every
    live buffer to its contents. *)
Abbreviation ref := positive.
Abbreviation store := (gmap positive contents).

(** A computation on the store; [None] is a dangling reference, which a
    Python program cannot produce. *)
Definition M (A : Type) : Type := store → option (A * store).

Definition ret {A} (a : A) : M A := λ σ, Some (a, σ).
Definition seq {A B} (m : M A) (k : A → M B) : M B :=
  λ σ, match m σ with
       | Some (a, σ') => k a σ'
       | None => None
       end.

(** [SimpleStringBuffer(string)]: a new object. *)
Definition __init__ (string : option string) : M ref :=
  λ σ, let self := fresh (dom σ) in
       Some (self, <[self := init string]> σ).

(** [self + string]: [self.buffer.append(string); return self]. *)
Definition __add__ (self : ref) (string : string) : M ref :=
  λ σ, match σ !! self with
       | Some b => Some (self, <[self := add b string]> σ)
       | None => None
       end.

(** [str(self)] *)
Definition __str__ (self : ref) : M string :=
  λ σ, match σ !! self with
       | Some b => Some (str b, σ)
       | None => None
       end.

(** [b + s1 + s2 + ... + sn], each [+] applied to the value the previous
    one returned. *)
Fixpoint add_all (b : ref) (strings : list string) : M ref :=
  match strings with
  | [] => ret b
  | s :: rest => seq (__add__ b s) (λ b', add_all b' rest)
  end.

End SimpleStringBuffer.

Import SimpleStringBuffer (contents).

(** * Gramps types the formatter reads *)

(** [Person.FEMALE], [Person.MALE], [Person.UNKNOWN] *)
Inductive Gender : Type := FEMALE | MALE | UNKNOWN.

#[global] Instance Gender_eq_dec : EqDecision Gender.
Proof. solve_decision. Defined.

(** [EventType]; birth and death and the events Gramps falls back on. *)
Inductive EventType : Type :=
  | BIRTH | DEATH | BAPTISM | CHRISTEN | BURIAL | CREMATION | OTHER_EVENT.

#[global] Instance EventType_eq_dec : EqDecision EventType.
Proof. solve_decision. Defined.

(** A handle as the formatter receives it: a string, or [None]. *)
Definition handle : Type := option string.

(** [if person_handle:] *)
Definition handle_truthy (h : handle) : bool := SimpleStringBuffer.truthy h.

(** [bool(s)] of a string *)
Definition nonempty (s : string) : bool :=
  match s with
  | EmptyString => false
  | String _ _ => true
  end.

(** ['%s' % h] *)
Definition str_of_handle (h : handle) : string :=
  match h with
  | Some s => s
  | None => "None"
  end.

(** [html.escape(s)], quotes included *)
Fixpoint escape (s : string) : string :=
  match s with
  | EmptyString => EmptyString
  | String c s' =>
      (match nat_of_ascii c with
       | 38 => "&amp;"
       | 60 => "&lt;"
       | 62 => "&gt;"
       | 34 => "&quot;"
       | 39 => "&#x27;"
       | _ => String c EmptyString
       end) ++ escape s'
  end.

(** [','.join(l)] *)
Definition join_comma (l : list string) : string := String.concat "," l.

(** [u in s]: the string [u] occurs in the string [s]. *)
Definition occurs (u s : string) : Prop := ∃ pre post, s = pre ++ u ++ post.

(** [s.isascii()]: a string is held as the bytes of its UTF-8 encoding,
    and every byte of [s] is below 128. *)
Fixpoint isascii (s : string) : bool :=
  match s with
  | EmptyString => true
  | String c s' => bool_decide (nat_of_ascii c < 128) && isascii s'
  end.

(** The bytes of a string, as numbers. *)
Definition bytes (s : string) : list nat :=
  nat_of_ascii <$> list_ascii_of_string s.

(** ** Constants of the module *)

Definition PED_COLLAPSE_LIMIT : nat := 10.
Definition RELATIONSHIP_LIMIT : nat := 8.

(** [' Â½']: the bytes of the literal as the source file has them
    (0x20 0xC3 0x82 0xC2 0xBD). *)
Definition HALF_MARK : string :=
  " " ++ chr 195 ++ chr 130 ++ chr 194 ++ chr 189.

(** [TITLE_FORMAT % s] *)
Definition TITLE_FORMAT (s : string) : string :=
  "<span size=" ++ DQ ++ "larger" ++ DQ ++ " weight=" ++ DQ ++ "bold" ++ DQ
  ++ " underline=" ++ DQ ++ "single" ++ DQ ++ ">" ++ s ++ "</span>".

(** The object [get_ancestor_by_number] returns. *)
Record Ancestor : Type := { get_person_handle : handle }.

(** What the formatter calls on a [Pedigree]; [comm_anc] is the value the
    pedigree keeps per common descendant, which the formatter only hands
    back to [order_ancestor_list].  A relationship list [rellist] holds
    items that are sequences of sequences of integers. *)
Definition rellist : Type := list (list (list Z)).
Definition relationships : Type := pydict (Z * Z) rellist.

Record Pedigree (comm_anc : Type) : Type := {
  has_pedigree_collapse : bool;
  determine_pedigree_collapse : option positive → gmap positive comm_anc;
  get_ancestor_by_number : positive → option Ancestor;
  order_ancestor_list : comm_anc → pydict (list positive) relationships
}.
Arguments has_pedigree_collapse {comm_anc} _.
Arguments determine_pedigree_collapse {comm_anc} _ _.
Arguments get_ancestor_by_number {comm_anc} _ _.
Arguments order_ancestor_list {comm_anc} _ _.

(** [sorted(d.keys())] for a dictionary keyed by position *)
Definition sorted_keys {V} (d : gmap positive V) : list positive :=
  merge_sort Pos.le (elements (dom d)).

(** * The pedigree engine

    [pedigree.py], which defines the class [Pedigree] the formatter is
    given, is not among the sources.  The definitions of this part follow
    the specification (sections 3 and 4.1 to 4.5). *)

Module Engine.

Local Close Scope string_scope.

(** Modelled from the spec: the slot of the missing [Pedigree] class
    ([AncestorSlot], section 3).  A slot holds an individual, is absent, or
    is the synthetic root of a joint tree, which stands for the couple and
    holds nobody. *)
Inductive slot : Type :=
  | Absent
  | Couple
  | Individual (ref : string).

#[global] Instance slot_eq_dec : EqDecision slot.
Proof. solve_decision. Defined.

(** Modelled from the spec: the [AncestorTree] of the missing [Pedigree]
    class, a mapping from position to slot.  The mapping records every
    position the builder visited, an absent slot included; a position the
    builder never visited has no entry. *)
Abbreviation AncestorTree := (gmap positive slot).

(** Modelled from the spec: a present position of the missing [Pedigree]
    class holds an individual or the couple; a visited position has an
    entry, whatever the slot (section 3). *)
Definition present (tree : AncestorTree) (n : positive) : Prop :=
  match tree !! n with
  | Some (Individual _) | Some Couple => True
  | _ => False
  end.

(** Modelled from the spec: a position the missing builder visited
    (section 3). *)
Definition visited (tree : AncestorTree) (n : positive) : Prop :=
  is_Some (tree !! n).

(** Modelled from the spec: the parent position of the missing [Pedigree]
    class, [n ÷ 2]; it is only taken of a position above the root. *)
Definition parent (n : positive) : positive := Pos.div2 n.

(** Modelled from the spec: the generation of a position (section 3),
    [⌊log2 n⌋]. *)
Definition generation (n : positive) : nat := Pos.size_nat n - 1.

(** Modelled from the spec: the line of descent of the missing grouper
    (section 4.3).  [z] lies on the line from position [n] down to the
    root: it is [n] or the parent of a position on the line. *)
Fixpoint on_line (z n : positive) : bool :=
  if decide (z = n) then true
  else match n with
       | xH => false
       | xO p | xI p => on_line z p
       end.

Section Builder.

(** The record store's [getParents] (section 6): father and mother, when
    known. *)
Variable getParents : string → option string * option string.

(** Modelled from the spec: the slot the missing builder records for a
    parent (section 4.1): absent when the record store knows none. *)
Definition slot_of (o : option string) : slot :=
  match o with
  | Some ref => Individual ref
  | None => Absent
  end.

(** Modelled from the spec: one step of the missing builder (section 4.1):
    the father of the individual at [n] at [2n], the mother at [2n+1]. *)
Definition expand_one (n : positive) (ref : string) : list (positive * slot) :=
  let '(father, mother) := getParents ref in
  [((2 * n)%positive, slot_of father); ((2 * n + 1)%positive, slot_of mother)].

(** Modelled from the spec: the slots of the missing builder that hold an
    individual; only these are expanded (section 4.1). *)
Definition individuals (l : list (positive * slot)) : list (positive * string) :=
  omap (λ '(n, s), match s with
                   | Individual ref => Some (n, ref)
                   | _ => None
                   end) l.

(** Modelled from the spec: the missing builder records the slots of a
    generation in the tree (section 3). *)
Definition record (l : list (positive * slot)) (tree : AncestorTree)
  : AncestorTree :=
  foldr (λ '(n, s) t, <[n := s]> t) tree l.

(** Modelled from the spec: the breadth-first expansion of the missing
    [Pedigree] builder (section 4.1), one generation per step.  [frontier]
    holds the present positions of the last generation built. *)
Fixpoint expand (generations : nat) (frontier : list (positive * string))
    (tree : AncestorTree) : AncestorTree :=
  match generations with
  | O => tree
  | S g =>
      let next := frontier ≫= (λ '(n, ref), expand_one n ref) in
      expand g (individuals next) (record next tree)
  end.

(** Modelled from the spec: [build(rootIndividual, maxGenerations)] of the
    missing [Pedigree] class (section 4.1). *)
Definition build (rootIndividual : string) (maxGenerations : nat)
  : AncestorTree :=
  expand maxGenerations [(1%positive, rootIndividual)]
    {[ 1%positive := Individual rootIndividual ]}.

(** Modelled from the spec: the joint tree of the missing [Pedigree] class
    (section 4.5): the couple at position 1, [personA] at 2, [personB]
    at 3, each with their own ancestors above. *)
Definition build_joint (personA personB : string) (maxGenerations : nat)
  : AncestorTree :=
  expand maxGenerations [(2%positive, personA); (3%positive, personB)]
    (<[ 3%positive := Individual personB ]>
       (<[ 2%positive := Individual personA ]>
          {[ 1%positive := Couple ]})).

End Builder.

(** ** Duplicates *)

(** Modelled from the spec: the pass of the missing duplicate detector over
    the present slots (section 4.2): the individuals of a tree with their
    positions, by ascending position. *)
Definition occupied (tree : AncestorTree) : list (positive * string) :=
  individuals ((λ n, (n, default Absent (tree !! n))) <$> sorted_keys tree).

(** Modelled from the spec: one step of the index of the missing duplicate
    detector (section 4.2): one more position for an identity. *)
Fixpoint add_position (index : list (string * list positive))
    (n : positive) (ref : string) : list (string * list positive) :=
  match index with
  | [] => [(ref, [n])]
  | (ref', ps) :: rest =>
      if decide (ref = ref') then (ref', (ps ++ [n])%list) :: rest
      else (ref', ps) :: add_position rest n ref
  end.

(** Modelled from the spec: the index of the missing duplicate detector
    (section 4.2), from an identity to the positions that hold it, built in
    one pass over the present slots by ascending position. *)
Definition index_of (tree : AncestorTree) : list (string * list positive) :=
  fold_left (λ index '(n, ref), add_position index n ref) (occupied tree) [].

(** Modelled from the spec: [findDuplicates] of the missing duplicate
    detector (section 4.2): the identities that hold two positions or
    more. *)
Definition findDuplicates (tree : AncestorTree) : list (list positive) :=
  filter (λ ps, 2 ≤ length ps) (index_of tree).*2.

(** ** Collapse points *)

(** Modelled from the spec: the convergence position of the missing
    grouper (section 4.3, step 1): the larger of the two values is replaced
    by its parent until they are equal.  Every step makes one value
    shorter, so the sum of the two lengths is fuel enough. *)
Fixpoint converge (fuel : nat) (x y : positive) : positive :=
  match fuel with
  | O => x
  | S f =>
      if decide (x = y) then x
      else if decide (x < y)%positive then converge f x (parent y)
           else converge f (parent x) y
  end.

Definition convergence (a b : positive) : positive :=
  converge (Pos.size_nat a + Pos.size_nat b) a b.

(** Modelled from the spec: the collapse point of a pair of positions in
    the missing grouper (sections 3 and 4.3): the position [d] whose
    parents [2d] and [2d+1] are the couple through whom the two lines
    diverge.  Two positions of which one lies on the line of the other
    diverge through no couple. *)
Definition collapse_point (a b : positive) : option positive :=
  let d := convergence a b in
  if decide (d = a ∨ d = b) then None else Some d.

(** Modelled from the spec: the unordered pairs of a group of the missing
    grouper (section 4.3, step 1). *)
Fixpoint pairs (group : list positive) : list (positive * positive) :=
  match group with
  | [] => []
  | a :: rest => ((λ b, (a, b)) <$> rest) ++ pairs rest
  end%list.

(** Modelled from the spec: the pairs of all the duplicate groups of the
    missing grouper (section 4.3, step 1). *)
Definition duplicate_pairs (tree : AncestorTree) : list (positive * positive) :=
  findDuplicates tree ≫= pairs.

(** Modelled from the spec: what the missing grouper keeps per collapse
    point (section 4.3, step 2): the duplicate pairs that diverge there. *)
Definition comm_anc : Type := list (positive * positive).

(** Modelled from the spec: one step of the missing grouper (section 4.3,
    step 2): a pair joins the entry of its collapse point. *)
Definition add_pair (descnum : option positive)
    (m : gmap positive comm_anc) (ab : positive * positive)
  : gmap positive comm_anc :=
  match collapse_point ab.1 ab.2 with
  | Some d =>
      if decide (descnum = None ∨ descnum = Some d)
      then <[ d := (default [] (m !! d) ++ [ab])%list ]> m
      else m
  | None => m
  end.

(** Modelled from the spec: [groupByCollapsePoint] of the missing grouper
    (section 4.3), as the formatter calls it: with a position, only the
    pairs that collapse at that position are kept (section 4.5). *)
Definition determine_pedigree_collapse (tree : AncestorTree)
    (descnum : option positive) : gmap positive comm_anc :=
  fold_left (add_pair descnum) (duplicate_pairs tree) ∅.

(** Modelled from the spec: whether the tree of the missing [Pedigree]
    class holds an individual more than once. *)
Definition has_pedigree_collapse (tree : AncestorTree) : bool :=
  bool_decide (findDuplicates tree ≠ []).

(** Modelled from the spec: [AncestorTree.get] of the missing [Pedigree]
    class (section 6).  A position that is not present resolves to
    nothing; the couple of a joint tree has no handle. *)
Definition get_ancestor_by_number (tree : AncestorTree) (n : positive)
  : option Ancestor :=
  match tree !! n with
  | Some (Individual ref) => Some {| get_person_handle := Some ref |}
  | Some Couple => Some {| get_person_handle := None |}
  | _ => None
  end.

(** Modelled from the spec: the object of the missing [Pedigree] class the
    formatter receives.  The specification leaves the partition into
    relationship classes open (section 9), so [order_ancestor_list] stays
    a parameter. *)
Definition pedigree_of
    (order_ancestor_list : comm_anc → pydict (list positive) relationships)
    (tree : AncestorTree) : Pedigree comm_anc :=
  Build_Pedigree comm_anc
    (has_pedigree_collapse tree)
    (determine_pedigree_collapse tree)
    (get_ancestor_by_number tree)
    order_ancestor_list.

End Engine.

(** * ConsFormatter *)

Section ConsFormatter.

(** ** Collaborators: Gramps services the module imports *)

(** [_], the translator of the add-on. *)
Variable tr : string → string.
(** [template % {'relationship': rel}] for a translated template. *)
Variable format_relationship : string → string → string.

Variables Database Person Event : Type.
(** [db.get_person_from_handle(handle)] *)
Variable get_person_from_handle : Database → string → result Person.
(** [person.get_gender()] *)
Variable get_gender : Person → Gender.
(** [name_displayer.display_name(person.get_primary_name())] *)
Variable display_name : Person → string.
Variable get_birth_or_fallback : Database → Person → option Event.
Variable get_death_or_fallback : Database → Person → option Event.
(** [get_date(event)], [event.get_type()] *)
Variable get_date : Event → string.
Variable get_type : Event → EventType.
(** [attr.get_type().string] for the attributes of an event, in order *)
Variable get_attribute_list : Event → list string.
(** [str.upper] *)
Variable upper : string → string.
(** [relcalc.get_plural_relationship_string(Ga, Gb)] *)
Variable get_plural_relationship_string : Z → Z → string.
(** [int(log(n, 2))]: the quotient of two double-precision logarithms,
    truncated.  The floating-point computation is not modelled. *)
Variable int_log_2 : positive → Z.
(** The class variables set from the configuration. *)
Variables birth_symbol baptism_symbol death_symbol burial_symbol : string.

(** The type of the values of the pedigree's collapse dictionary. *)
Variable CA : Type.

(** ** Messages *)

Definition MSG_UNKNOWN_NAME := tr "(unknown)".
Definition MSG_RELATIONSHIP := tr "Relationship:".
Definition MSG_RELATIONSHIPS := tr "Relationships:".
Definition MSG_COMMON_ANC := tr (DQ ++ "Common ancestor:").
Definition MSG_COMMON_ANCS := tr "Common ancestors:".
Definition MSG_MORE_SPOUSE_RELS := tr "More spouse relationships not shown.".
Definition MSG_MORE_RELS := tr "More relationships not shown.".
Definition MSG_PED_COLLAPSE_ACTIVE := tr "Pedigree collapse for active person".
Definition MSG_NO_PED_COLLAPSE := tr "No pedigree collapse found.".
Definition MSG_PED_COLLAPSE_AT := tr "Pedigree collapse at %(relationship)s:".
Definition MSG_MORE_PED_COLLAPSE :=
  tr "More instances of pedigree collapse not shown.".
Definition MSG_NO_PARTNERS := tr "No partners.".
Definition MSG_NOT_MARRIED := tr "Not married.".
Definition MSG_PARTNER := tr "Partner:".
Definition MSG_RELS_BET_ACTIVE_AND_PARTNER :=
  tr "Relationships between active person and partners".
Definition MSG_NO_COMMON_ANCS := tr "No common ancestors found.".

(** ** The instance *)

Record ConsFormatter : Type := {
  db : Database;
  person_handle : string;
  pedigree : Pedigree CA;
  spouse_pedigrees : list (string * Pedigree CA);
  person : Person;
  gender : Gender
}.

Definition new (db : Database) (person_handle : string)
    (pedigree : Pedigree CA)
    (spouse_pedigrees : list (string * Pedigree CA))
  : result ConsFormatter :=
  person ← get_person_from_handle db person_handle;
  mret {| db := db; person_handle := person_handle; pedigree := pedigree;
          spouse_pedigrees := spouse_pedigrees; person := person;
          gender := get_gender person |}.

(** ** fmt_date, info_string *)

Definition fmt_date (date : option Event) (preferred_event_type : EventType)
  : string :=
  match date with
  | None => EmptyString
  | Some date =>
      let sdate := get_date date in
      if negb (nonempty sdate) then EmptyString
      else
        let sdate := escape sdate in
        let date_type := get_type date in
        if decide (preferred_event_type = BIRTH) then
          if decide (date_type ≠ preferred_event_type)
          then baptism_symbol ++ "<i>" ++ sdate ++ "</i>"
          else birth_symbol ++ sdate
        else
          if decide (date_type ≠ preferred_event_type)
          then burial_symbol ++ "<i>" ++ sdate ++ "</i>"
          else death_symbol ++ sdate
  end.

Definition info_string (db : Database) (person : Person) (split : bool)
  : string :=
  let bdate := fmt_date (get_birth_or_fallback db person) BIRTH in
  let ddate := fmt_date (get_death_or_fallback db person) DEATH in
  if split then
    if nonempty bdate && nonempty ddate then bdate ++ NL ++ ddate
    else if nonempty bdate then bdate
    else if nonempty ddate then ddate else EmptyString
  else
    if nonempty bdate && nonempty ddate
    then "(" ++ bdate ++ ", " ++ ddate ++ ")"
    else if nonempty bdate then "(" ++ bdate ++ ")"
    else if nonempty ddate then "(" ++ ddate ++ ")"
    else EmptyString.

(** ** format_person *)

Definition format_person (db : Database) (person_handle : handle)
    (prestr poststr : string) (link dates split : bool) : result string :=
  '(person, name, dates) ←
    (if handle_truthy person_handle then
       person ← get_person_from_handle db (str_of_handle person_handle);
       mret (Some person, display_name person, dates)
     else
       mret (None, MSG_UNKNOWN_NAME, false));
  let outstr :=
    if link
    then "<a href=" ++ DQ ++ "P " ++ str_of_handle person_handle ++ DQ
         ++ ">" ++ name ++ "</a>"
    else name in
  outstr ←
    (if dates : bool then
       person ← of_option UnboundLocalError person;
       let datestr := info_string db person split in
       mret (if nonempty datestr
             then outstr ++ (if split then NL else " ") ++ datestr
             else outstr)
     else mret outstr);
  mret (prestr ++ outstr ++ poststr).

(** ** no_spouses_string *)

Fixpoint unmarried_loop (attr_list : list string) : string :=
  match attr_list with
  | [] => MSG_NO_PARTNERS
  | attr :: rest =>
      if decide (upper attr = "UNMARRIED") then MSG_NOT_MARRIED
      else unmarried_loop rest
  end.

Definition no_spouses_string (self : ConsFormatter) (person : Person)
  : string :=
  match get_death_or_fallback (db self) person with
  | None => MSG_NO_PARTNERS
  | Some death_event =>
      let event_type := get_type death_event in
      if decide (event_type ≠ DEATH) then MSG_NO_PARTNERS
      else unmarried_loop (get_attribute_list death_event)
  end.

(** ** get_title *)

Definition get_title (self : ConsFormatter) : result string :=
  format_person (db self) (Some (person_handle self))
    ("<span size=" ++ DQ ++ "larger" ++ DQ ++ " weight=" ++ DQ
     ++ "ultrabold" ++ DQ ++ ">")
    "</span>" false true false.


(** ** format_common_ancestor_names *)

(** Every method below makes a buffer of its own, adds to it and returns
    its conversion to a string: no other name refers to the buffer, so the
    contents are passed from one addition to the next.  A [for] loop is a
    recursive function over the sequence it iterates; the locals it updates
    are its arguments, and its body is a function of its own, from the
    buffer before an iteration to the buffer after it. *)

Definition common_ancestor_names_body (self : ConsFormatter)
    (pedigree : Pedigree CA) (anc_num : positive) (outstr : contents)
  : result contents :=
  ancestor ← of_option AttributeError
               (get_ancestor_by_number pedigree anc_num);
  s ← format_person (db self) (get_person_handle ancestor)
        (TAB ++ TAB) NL true true false;
  mret (SimpleStringBuffer.add outstr s).

Fixpoint common_ancestor_names_loop (self : ConsFormatter)
    (pedigree : Pedigree CA) (common_ancestors : list positive)
    (outstr : contents) : result contents :=
  match common_ancestors with
  | [] => mret outstr
  | anc_num :: rest =>
      outstr ← common_ancestor_names_body self pedigree anc_num outstr;
      common_ancestor_names_loop self pedigree rest outstr
  end.

Definition format_common_ancestor_names (self : ConsFormatter)
    (pedigree : Pedigree CA) (common_ancestors : list positive)
  : result string :=
  let outstr := SimpleStringBuffer.init None in
  let outstr :=
    if decide (length common_ancestors = 1)
    then SimpleStringBuffer.add outstr
           (TAB ++ "<b>" ++ MSG_COMMON_ANC ++ "</b>" ++ NL)
    else SimpleStringBuffer.add outstr
           (TAB ++ "<b>" ++ MSG_COMMON_ANCS ++ "</b>" ++ NL) in
  outstr ← common_ancestor_names_loop self pedigree common_ancestors outstr;
  mret (SimpleStringBuffer.str outstr).

(** ** format_common_anc_rels *)

(** The inner loop: [rellist_str += ','.join(...) + ' '] for every item. *)
Fixpoint rellist_str_loop (rellist : rellist) (rellist_str : string) : string :=
  match rellist with
  | [] => rellist_str
  | item :: rest =>
      rellist_str_loop rest
        (rellist_str ++ join_comma (pretty <$> concat item) ++ " ")
  end.

(** One relationship: the body of the loop after the test of the limit. *)
Definition anc_rels_body (ped_index : nat) (rel : relationships)
    (half : bool) (rel_type : string) (generations : Z)
    (active_gender : Gender) (relnum : Z * Z) (tabs : string)
    (outstr : contents) : result contents :=
  rellist ← getitem rel relnum;
  let num_rels := length rellist in
  let ways :=
    if decide (1 < num_rels) then " x" ++ pretty num_rels
    else EmptyString in
  let relstr :=
    if decide (active_gender = MALE)
    then get_plural_relationship_string
           (relnum.1 - generations)%Z (relnum.2 - generations)%Z
    else get_plural_relationship_string
           (relnum.2 - generations)%Z (relnum.1 - generations)%Z in
  let relstr :=
    relstr ++ (if half || nonempty ways then "," else EmptyString)
    ++ rel_type ++ ways in
  let rellist_str := rellist_str_loop rellist EmptyString in
  let href := "N " ++ pretty ped_index ++ " " ++ rellist_str in
  mret (SimpleStringBuffer.add outstr
          (tabs ++ "<a href=" ++ DQ ++ href ++ DQ ++ ">" ++ relstr
           ++ "</a>" ++ NL)).

(** The loop over the relationships; [count] and [tabs] are the locals it
    updates, and the [break] leaves it with the buffer as it is. *)
Fixpoint anc_rels_loop (ped_index : nat) (rel : relationships)
    (half : bool) (rel_type : string) (generations : Z)
    (active_gender : Gender)
    (relnums : list (Z * Z)) (count : nat) (tabs : string)
    (outstr : contents) : result contents :=
  match relnums with
  | [] => mret outstr
  | relnum :: rest =>
      let count := count + 1 in
      if decide (RELATIONSHIP_LIMIT < count) then
        mret (SimpleStringBuffer.add outstr
                (TAB ++ TAB ++ TAB ++ "<b><i>" ++ MSG_MORE_RELS
                 ++ "</i></b>" ++ NL))
      else
        outstr ← anc_rels_body ped_index rel half rel_type generations
                   active_gender relnum tabs outstr;
        anc_rels_loop ped_index rel half rel_type generations active_gender
          rest count (TAB ++ TAB ++ TAB) outstr
  end.

Definition format_common_anc_rels (self : ConsFormatter) (ped_index : nat)
    (rel : relationships) (half : bool) (generations : Z)
    (active_gender spouse_gender : Gender) : result string :=
  let outstr := SimpleStringBuffer.init None in
  let relnums := keys rel in
  let plural := bool_decide (1 < length relnums) in
  let '(outstr, tabs) :=
    if plural
    then (SimpleStringBuffer.add outstr
            (TAB ++ "<b>" ++ MSG_RELATIONSHIPS ++ "</b> "),
          NL ++ TAB ++ TAB ++ TAB)
    else (SimpleStringBuffer.add outstr
            (TAB ++ "<b>" ++ MSG_RELATIONSHIP ++ "</b> "),
          EmptyString) in
  let rel_type := if half then HALF_MARK else EmptyString in
  outstr ← anc_rels_loop ped_index rel half rel_type generations
             active_gender relnums 0 tabs outstr;
  mret (SimpleStringBuffer.str outstr).

(** ** get_pedigree_collapse *)

(** One group of common ancestors of a common descendant. *)
Definition collapse_group_body (self : ConsFormatter) (gens : Z)
    (item : list positive * relationships) (outstr : contents)
  : result contents :=
  let '(primnums, ancs) := item in
  s ← format_common_anc_rels self 0 ancs
        (if decide (length primnums = 1) then true else false)
        gens MALE FEMALE;
  let outstr := SimpleStringBuffer.add outstr s in
  s ← format_common_ancestor_names self (pedigree self) primnums;
  mret (SimpleStringBuffer.add outstr s).

Fixpoint collapse_groups_loop (self : ConsFormatter) (gens : Z)
    (items : pydict (list positive) relationships) (outstr : contents)
  : result contents :=
  match items with
  | [] => mret outstr
  | item :: rest =>
      outstr ← collapse_group_body self gens item outstr;
      collapse_groups_loop self gens rest outstr
  end.

(** One common descendant: the body of the loop after the test of the
    limit. *)
Definition collapse_body (self : ConsFormatter)
    (ped_collapse : gmap positive CA) (descnum : positive)
    (outstr : contents) : result contents :=
  comm_anc ← of_option KeyError (ped_collapse !! descnum);
  father ← of_option AttributeError
             (get_ancestor_by_number (pedigree self) (descnum * 2));
  let father_handle := get_person_handle father in
  mother ← of_option AttributeError
             (get_ancestor_by_number (pedigree self) (descnum * 2 + 1));
  let mother_handle := get_person_handle mother in
  let gens := (int_log_2 descnum + 1)%Z in
  let rel := get_plural_relationship_string gens 0 in
  let outstr :=
    SimpleStringBuffer.add outstr
      ("<b>" ++ format_relationship MSG_PED_COLLAPSE_AT rel
       ++ "</b>" ++ NL) in
  s ← format_person (db self) father_handle TAB NL true true false;
  let outstr := SimpleStringBuffer.add outstr s in
  s ← format_person (db self) mother_handle TAB NL true true false;
  let outstr := SimpleStringBuffer.add outstr s in
  let ordered_anc := order_ancestor_list (pedigree self) comm_anc in
  outstr ← collapse_groups_loop self gens ordered_anc outstr;
  mret (SimpleStringBuffer.add outstr NL).

(** The loop over the common descendants. *)
Fixpoint collapse_loop (self : ConsFormatter)
    (ped_collapse : gmap positive CA) (descnums : list positive)
    (count : nat) (outstr : contents) : result contents :=
  match descnums with
  | [] => mret outstr
  | descnum :: rest =>
      let count := count + 1 in
      if decide (PED_COLLAPSE_LIMIT < count) then
        mret (SimpleStringBuffer.add outstr
                ("<b><i>" ++ MSG_MORE_PED_COLLAPSE ++ "</i></b>" ++ NL))
      else
        outstr ← collapse_body self ped_collapse descnum outstr;
        collapse_loop self ped_collapse rest count outstr
  end.

Definition get_pedigree_collapse (self : ConsFormatter) : result string :=
  let outstr :=
    SimpleStringBuffer.init
      (Some (TITLE_FORMAT MSG_PED_COLLAPSE_ACTIVE ++ NL ++ NL)) in
  if negb (has_pedigree_collapse (pedigree self)) then
    let outstr :=
      SimpleStringBuffer.add outstr
        ("<i>" ++ MSG_NO_PED_COLLAPSE ++ "</i>" ++ NL ++ NL) in
    mret (SimpleStringBuffer.str outstr)
  else
    let ped_collapse := determine_pedigree_collapse (pedigree self) None in
    outstr ← collapse_loop self ped_collapse (sorted_keys ped_collapse)
               0 outstr;
    mret (SimpleStringBuffer.str outstr).

(** ** get_consanguinity *)

(** One group of ancestors common to the active person and a spouse. *)
Definition spouse_group_body (self : ConsFormatter) (spouse_num : nat)
    (spouse_pedigree : Pedigree CA) (spouse_gender : Gender)
    (item : list positive * relationships) (outstr : contents)
  : result contents :=
  let '(primnums, ancs) := item in
  s ← format_common_anc_rels self spouse_num ancs
        (if decide (length primnums = 1) then true else false)
        1 (gender self) spouse_gender;
  let outstr := SimpleStringBuffer.add outstr s in
  s ← format_common_ancestor_names self spouse_pedigree primnums;
  mret (SimpleStringBuffer.add outstr s).

Fixpoint spouse_groups_loop (self : ConsFormatter) (spouse_num : nat)
    (spouse_pedigree : Pedigree CA) (spouse_gender : Gender)
    (items : pydict (list positive) relationships) (count : nat)
    (outstr : contents) : result contents :=
  match items with
  | [] => mret outstr
  | item :: rest =>
      let count := count + 1 in
      if decide (PED_COLLAPSE_LIMIT < count) then
        mret (SimpleStringBuffer.add outstr
                (TAB ++ "<b><i>" ++ MSG_MORE_SPOUSE_RELS ++ "</i></b>" ++ NL))
      else
        outstr ← spouse_group_body self spouse_num spouse_pedigree
                   spouse_gender item outstr;
        spouse_groups_loop self spouse_num spouse_pedigree spouse_gender
          rest count outstr
  end.

(** One spouse; a [continue] ends the iteration with the buffer as it is. *)
Definition spouse_body (self : ConsFormatter) (spouse_num : nat)
    (spouse_handle : string) (spouse_pedigree : Pedigree CA)
    (outstr : contents) : result contents :=
  spouse ← get_person_from_handle (db self) spouse_handle;
  let spouse_gender := get_gender spouse in
  s ← format_person (db self) (Some spouse_handle)
        (NL ++ "<b>" ++ MSG_PARTNER ++ "</b> ") NL true true false;
  let outstr := SimpleStringBuffer.add outstr s in
  if negb (has_pedigree_collapse spouse_pedigree) then
    mret (SimpleStringBuffer.add outstr
            (TAB ++ "<i>" ++ MSG_NO_COMMON_ANCS ++ "</i>" ++ NL))
  else
    let ped_collapse :=
      determine_pedigree_collapse spouse_pedigree (Some 1%positive) in
    if decide (ped_collapse = ∅) then
      mret (SimpleStringBuffer.add outstr
              (TAB ++ "<i>" ++ MSG_NO_COMMON_ANCS ++ "</i>" ++ NL))
    else
      comm_anc ← of_option KeyError (ped_collapse !! 1%positive);
      let ordered_anc := order_ancestor_list spouse_pedigree comm_anc in
      spouse_groups_loop self spouse_num spouse_pedigree spouse_gender
        ordered_anc 0 outstr.

Fixpoint spouses_loop (self : ConsFormatter)
    (spouses : list (string * Pedigree CA)) (spouse_num : nat)
    (outstr : contents) : result contents :=
  match spouses with
  | [] => mret outstr
  | (spouse_handle, spouse_pedigree) :: rest =>
      let spouse_num := spouse_num + 1 in
      outstr ← spouse_body self spouse_num spouse_handle spouse_pedigree
                 outstr;
      spouses_loop self rest spouse_num outstr
  end.

Definition get_consanguinity (self : ConsFormatter) : result string :=
  let outstr :=
    SimpleStringBuffer.init
      (Some (TITLE_FORMAT MSG_RELS_BET_ACTIVE_AND_PARTNER ++ NL)) in
  match spouse_pedigrees self with
  | [] =>
      let outstr := SimpleStringBuffer.add outstr (NL ++ "<i>") in
      let outstr :=
        SimpleStringBuffer.add outstr
          (no_spouses_string self (person self)) in
      let outstr := SimpleStringBuffer.add outstr ("</i>" ++ NL) in
      mret (SimpleStringBuffer.str outstr)
  | _ =>
      outstr ← spouses_loop self (spouse_pedigrees self) 0 outstr;
      mret (SimpleStringBuffer.str outstr)
  end.

(** ** Renderings in closed form

    What the loops above leave in the buffer, written without counters:
    the statements of the properties compare the loops with these. *)

(** The order in which the two remove values reach the relationship
    calculator: as they are for a male, swapped otherwise. *)
Definition presented_first (g : Gender) (removeA removeB : Z) : Z * Z :=
  if decide (g = MALE) then (removeA, removeB) else (removeB, removeA).

(** The text of one relationship: the name the calculator gives the pair
    of removes, a comma when a mark or a count follows, the mark of a half
    relationship, and the count of the ways. *)
Definition relationship_text (half : bool) (generations : Z)
    (active_gender : Gender) (relnum : Z * Z) (num_rels : nat) : string :=
  let removes :=
    presented_first active_gender
      (relnum.1 - generations)%Z (relnum.2 - generations)%Z in
  get_plural_relationship_string removes.1 removes.2
  ++ (if half || bool_decide (1 < num_rels) then "," else EmptyString)
  ++ (if half then HALF_MARK else EmptyString)
  ++ (if decide (1 < num_rels) then " x" ++ pretty num_rels
      else EmptyString).

(** The piece one relationship adds to the buffer: the link. *)
Definition relationship_entry (ped_index : nat) (half : bool)
    (generations : Z) (active_gender : Gender) (tabs : string)
    (item : (Z * Z) * rellist) : string :=
  tabs ++ "<a href=" ++ DQ
  ++ ("N " ++ pretty ped_index ++ " " ++ rellist_str_loop item.2 EmptyString)
  ++ DQ ++ ">"
  ++ relationship_text half generations active_gender item.1 (length item.2)
  ++ "</a>" ++ NL.

(** The pieces of a sequence of relationships: the first after [tabs], the
    others after three tabulations. *)
Definition relationship_entries (ped_index : nat) (half : bool)
    (generations : Z) (active_gender : Gender) (tabs : string)
    (items : list ((Z * Z) * rellist)) : list string :=
  match items with
  | [] => []
  | item :: rest =>
      relationship_entry ped_index half generations active_gender tabs item
      :: (relationship_entry ped_index half generations active_gender
            (TAB ++ TAB ++ TAB) <$> rest)
  end.

(** The line that stands for the relationships left out. *)
Definition more_rels : string :=
  TAB ++ TAB ++ TAB ++ "<b><i>" ++ MSG_MORE_RELS ++ "</i></b>" ++ NL.

(** The line that stands for the common descendants left out. *)
Definition more_ped_collapse : string :=
  "<b><i>" ++ MSG_MORE_PED_COLLAPSE ++ "</i></b>" ++ NL.

(** The line that stands for the groups of common ancestors left out. *)
Definition more_spouse_rels : string :=
  TAB ++ "<b><i>" ++ MSG_MORE_SPOUSE_RELS ++ "</i></b>" ++ NL.

(** The line of a spouse who shares no ancestor with the active person. *)
Definition no_common_ancs : string :=
  TAB ++ "<i>" ++ MSG_NO_COMMON_ANCS ++ "</i>" ++ NL.

(** [more] when [n] exceeds [limit], nothing otherwise. *)
Definition truncation (limit n : nat) (more : string) : list string :=
  if decide (limit < n) then [more] else [].

(** The formatter with another gender for the active person. *)
Definition with_gender (self : ConsFormatter) (g : Gender) : ConsFormatter :=
  {| db := db self; person_handle := person_handle self;
     pedigree := pedigree self; spouse_pedigrees := spouse_pedigrees self;
     person := person self; gender := g |}.

(** The heading of the relationships of a group, and what precedes the
    first of them. *)
Definition relationships_header (n : nat) : string :=
  TAB ++ "<b>"
  ++ (if decide (1 < n) then MSG_RELATIONSHIPS else MSG_RELATIONSHIP)
  ++ "</b> ".

Definition first_tabs (n : nat) : string :=
  if decide (1 < n) then NL ++ TAB ++ TAB ++ TAB else EmptyString.

(** The relationships of a group as [format_common_anc_rels] prints them:
    the heading, the first [RELATIONSHIP_LIMIT] relationships, and the
    line for the rest when there is one. *)
Definition relationships_closed (ped_index : nat) (half : bool)
    (generations : Z) (active_gender : Gender) (rel : relationships)
  : string :=
  join (relationships_header (length rel)
        :: relationship_entries ped_index half generations active_gender
             (first_tabs (length rel)) (take RELATIONSHIP_LIMIT rel)
        ++ truncation RELATIONSHIP_LIMIT (length rel) more_rels)%list.

(** A loop whose body adds to the buffer, and the same with a counter and
    a limit: past the limit the loop adds [more] and stops. *)
Fixpoint for_each {A} (body : A → contents → result contents)
    (l : list A) (outstr : contents) : result contents :=
  match l with
  | [] => mret outstr
  | x :: rest => outstr ← body x outstr; for_each body rest outstr
  end.

Fixpoint for_each_limit {A} (limit : nat) (more : string)
    (body : A → contents → result contents)
    (l : list A) (count : nat) (outstr : contents) : result contents :=
  match l with
  | [] => mret outstr
  | x :: rest =>
      let count := count + 1 in
      if decide (limit < count) then mret (SimpleStringBuffer.add outstr more)
      else outstr ← body x outstr;
           for_each_limit limit more body rest count outstr
  end.

(** A body only adds pieces at the end of the buffer it is given. *)
Definition appends {A} (body : A → contents → result contents) : Prop :=
  ∀ (x : A) (outstr : contents),
    body x outstr = (pieces ← body x []; mret (outstr ++ pieces)%list).

(** The titles of the two sections. *)
Definition collapse_title : string :=
  TITLE_FORMAT MSG_PED_COLLAPSE_ACTIVE ++ NL ++ NL.

Definition consanguinity_title : string :=
  TITLE_FORMAT MSG_RELS_BET_ACTIVE_AND_PARTNER ++ NL.

(** ** Lines of ancestry in the record store *)

(** [r] belongs to the line of [p]: it is [p] or the father or the mother
    of somebody of the line. *)
Inductive line_of (getParents : string → option string * option string)
    (p : string) : string → Prop :=
  | line_self : line_of getParents p p
  | line_father r father :
      line_of getParents p r → (getParents r).1 = Some father →
      line_of getParents p father
  | line_mother r mother :
      line_of getParents p r → (getParents r).2 = Some mother →
      line_of getParents p mother.

(** Two individuals share no ancestor: nobody belongs to both lines. *)
Definition no_shared_ancestor
    (getParents : string → option string * option string)
    (personA personB : string) : Prop :=
  ∀ r, line_of getParents personA r → line_of getParents personB r → False.

(** The line of a spouse: the spouse is fetched, then printed. *)
Definition partner_line (self : ConsFormatter) (spouse_handle : string)
  : result string :=
  _ ← get_person_from_handle (db self) spouse_handle;
  format_person (db self) (Some spouse_handle)
    (NL ++ "<b>" ++ MSG_PARTNER ++ "</b> ") NL true true false.

(** A pedigree object answers for a tree of the engine: it reports the
    collapse, the keys of the collapse dictionary and the ancestors of that
    tree.  The values it keeps per key are its own. *)
Definition models_tree (pedigree : Pedigree CA)
    (tree : Engine.AncestorTree) : Prop :=
  has_pedigree_collapse pedigree = Engine.has_pedigree_collapse tree
  ∧ (∀ descnum,
       dom (determine_pedigree_collapse pedigree descnum)
       = dom (Engine.determine_pedigree_collapse tree descnum))
  ∧ (∀ n, get_ancestor_by_number pedigree n
          = Engine.get_ancestor_by_number tree n).

(** * Properties *)

(** ** Strings and buffers *)

Lemma append_cons (a : ascii) (s t : string) :
  String a s ++ t = String a (s ++ t).
Proof. reflexivity. Qed.

Lemma append_nil_r (s : string) : s ++ EmptyString = s.
Proof. induction s as [|a s IH]; [done|]. by rewrite append_cons, IH. Qed.

Lemma append_assoc (s t u : string) : (s ++ t) ++ u = s ++ t ++ u.
Proof. induction s as [|a s IH]; [done|]. by rewrite !append_cons, IH. Qed.

Lemma join_cons (x : string) (l : list string) : join (x :: l) = x ++ join l.
Proof.
  unfold join. destruct l as [|y l]; simpl.
  - by rewrite append_nil_r.
  - reflexivity.
Qed.

Lemma join_app (l1 l2 : list string) :
  join (l1 ++ l2)%list = join l1 ++ join l2.
Proof.
  induction l1 as [|x l1 IH]; [done|].
  change ((x :: l1) ++ l2)%list with (x :: (l1 ++ l2))%list.
  by rewrite !join_cons, IH, append_assoc.
Qed.

Lemma str_add (b : contents) (s : string) :
  SimpleStringBuffer.str (SimpleStringBuffer.add b s)
  = SimpleStringBuffer.str b ++ s.
Proof.
  unfold SimpleStringBuffer.str, SimpleStringBuffer.add.
  rewrite join_app, (join_cons s []). by rewrite append_nil_r.
Qed.

Lemma str_init (string : option string) :
  SimpleStringBuffer.str (SimpleStringBuffer.init string)
  = default EmptyString string.
Proof. by destruct string as [[|a s]|]. Qed.

Lemma add_all_spec (b : SimpleStringBuffer.ref) (strings : list string)
    (σ : SimpleStringBuffer.store) (c : contents) :
  σ !! b = Some c →
  SimpleStringBuffer.add_all b strings σ
  = Some (b, <[b := (c ++ strings)%list]> σ).
Proof.
  revert σ c. induction strings as [|s strings IH]; intros σ c Hb; simpl.
  - unfold SimpleStringBuffer.ret. by rewrite app_nil_r, insert_id.
  - unfold SimpleStringBuffer.seq, SimpleStringBuffer.__add__.
    rewrite Hb. rewrite (IH _ (SimpleStringBuffer.add c s)).
    + unfold SimpleStringBuffer.add.
      by rewrite insert_insert_eq, <- app_assoc.
    + by rewrite lookup_insert_eq.
Qed.

(** C10.  A buffer made from an optional initial string, to which the
    strings [strings] are then added one after the other, converts to the
    initial string (when given) followed by the added strings in the order
    they were added.  Every [+] returns the buffer it was applied to: the
    new object [self] is the value of the whole chain of additions, and an
    addition [b + s] on any store returns [b] itself, in a store that
    differs only in the contents of [b], which have [s] at their end: the
    left operand has changed and no new buffer exists. *)
Theorem C10_buffer_concatenation_and_identity :
  ∀ (initial : option string) (strings : list string)
    (σ : SimpleStringBuffer.store),
    let self := fresh (dom σ) in
    (∃ σ0 σ',
        SimpleStringBuffer.__init__ initial σ = Some (self, σ0)
        ∧ SimpleStringBuffer.add_all self strings σ0 = Some (self, σ')
        ∧ SimpleStringBuffer.__str__ self σ'
          = Some (default EmptyString initial ++ join strings, σ'))
    ∧ (∀ (b : SimpleStringBuffer.ref) (s : string)
         (τ : SimpleStringBuffer.store),
          SimpleStringBuffer.__add__ b s τ
          = (λ c, (b, <[b := (c ++ [s])%list]> τ)) <$> τ !! b).
Proof.
  intros initial strings σ self. split.
  - eexists _, _. split; [reflexivity|].
    split.
    + apply add_all_spec. apply lookup_insert_eq.
    + unfold SimpleStringBuffer.__str__. rewrite lookup_insert_eq.
      rewrite insert_insert_eq.
      change (SimpleStringBuffer.str ?l) with (join l).
      rewrite join_app.
      change (join (SimpleStringBuffer.init initial))
        with (SimpleStringBuffer.str (SimpleStringBuffer.init initial)).
      by rewrite str_init.
  - intros b s τ. unfold SimpleStringBuffer.__add__. by destruct (τ !! b).
Qed.

(** ** The result monad *)

Lemma bind_ok {A B} (a : A) (k : A → result B) : (mret a ≫= k) = k a.
Proof. reflexivity. Qed.

Lemma bind_inr {A B} (a : A) (k : A → result B) :
  (@inr exn A a ≫= k) = k a.
Proof. reflexivity. Qed.

Lemma getitem_NoDup {K V} `{EqDecision K} (d : pydict K V) (k : K) (v : V) :
  NoDup (keys d) → (k, v) ∈ d → getitem d k = ok v.
Proof.
  unfold keys. induction d as [|[k' v'] d IH]; simpl; intros Hnd Hin.
  - by apply elem_of_nil in Hin.
  - apply NoDup_cons in Hnd as [Hk' Hnd].
    apply elem_of_cons in Hin as [Heq|Hin].
    + injection Heq as -> ->. by rewrite decide_True.
    + rewrite decide_False; [by apply IH|].
      intros ->. apply Hk'. apply list_elem_of_fmap. by exists (k', v).
Qed.

(** ** format_person *)

(** C9.  [format_person] called with an absent reference ([None] or the
    empty string) returns: whatever the database, the surrounding strings
    and the flags, the result is the name [(unknown)] (as a link when
    [link] is set) between [prestr] and [poststr], with no date
    information, [dates] being set or not. *)
Theorem C9_format_person_absent_reference :
  ∀ (db : Database) (person_handle : handle) (prestr poststr : string)
    (link dates split : bool),
    handle_truthy person_handle = false →
    format_person db person_handle prestr poststr link dates split
    = ok (prestr
          ++ (if link
              then "<a href=" ++ DQ ++ "P " ++ str_of_handle person_handle
                   ++ DQ ++ ">" ++ MSG_UNKNOWN_NAME ++ "</a>"
              else MSG_UNKNOWN_NAME)
          ++ poststr).
Proof.
  intros db0 h prestr poststr link dates split Hh.
  unfold format_person. rewrite Hh. by destruct link.
Qed.

(** ** format_common_anc_rels *)

Lemma anc_rels_body_spec (ped_index : nat) (rel : relationships)
    (half : bool) (generations : Z) (active_gender : Gender)
    (relnum : Z * Z) (rellist : rellist) (tabs : string) (outstr : contents) :
  getitem rel relnum = ok rellist →
  anc_rels_body ped_index rel half (if half then HALF_MARK else EmptyString)
    generations active_gender relnum tabs outstr
  = ok (outstr
        ++ [relationship_entry ped_index half generations active_gender
              tabs (relnum, rellist)])%list.
Proof.
  intros Hget. unfold anc_rels_body. rewrite Hget.
  unfold ok at 1. rewrite bind_inr.
  unfold relationship_entry, relationship_text, presented_first,
    SimpleStringBuffer.add; simpl fst; simpl snd.
  destruct (decide (active_gender = MALE)); simpl fst; simpl snd;
    destruct (decide (1 < length rellist)) as [Hn|Hn].
  all: try rewrite (bool_decide_eq_true_2 _ Hn).
  all: try rewrite (bool_decide_eq_false_2 _ Hn).
  all: reflexivity.
Qed.

Lemma relationship_entries_tabs (ped_index : nat) (half : bool)
    (generations : Z) (active_gender : Gender)
    (items : list ((Z * Z) * rellist)) :
  relationship_entries ped_index half generations active_gender
    (TAB ++ TAB ++ TAB) items
  = relationship_entry ped_index half generations active_gender
      (TAB ++ TAB ++ TAB) <$> items.
Proof. by destruct items. Qed.

Lemma anc_rels_loop_spec (ped_index : nat) (rel : relationships)
    (half : bool) (generations : Z) (active_gender : Gender)
    (items : list ((Z * Z) * rellist)) :
  (∀ k v, (k, v) ∈ items → getitem rel k = ok v) →
  ∀ (count : nat) (tabs : string) (outstr : contents),
    anc_rels_loop ped_index rel half (if half then HALF_MARK else EmptyString)
      generations active_gender (keys items) count tabs outstr
    = ok (outstr
          ++ relationship_entries ped_index half generations active_gender
               tabs (take (RELATIONSHIP_LIMIT - count) items)
          ++ truncation (RELATIONSHIP_LIMIT - count) (length items)
               more_rels)%list.
Proof.
  induction items as [|[k v] items IH]; intros Hget count tabs outstr.
  - simpl. unfold truncation. rewrite decide_False by (simpl; lia).
    rewrite take_nil. simpl. by rewrite app_nil_r.
  - change (keys ((k, v) :: items)) with (k :: keys items).
    cbn [anc_rels_loop].
    destruct (decide (RELATIONSHIP_LIMIT < count + 1)) as [Hlim|Hlim].
    + replace (RELATIONSHIP_LIMIT - count) with 0 by lia.
      unfold truncation. rewrite decide_True by (simpl; lia).
      reflexivity.
    + rewrite (anc_rels_body_spec _ _ _ _ _ _ v) by (apply Hget; left).
      unfold ok at 1. rewrite bind_inr.
      rewrite IH by (intros k' v' Hin; apply Hget; by right).
      replace (RELATIONSHIP_LIMIT - count)
        with (S (RELATIONSHIP_LIMIT - (count + 1))) by lia.
      rewrite firstn_cons. unfold SimpleStringBuffer.add.
      rewrite <- app_assoc. do 2 f_equal.
      cbn [relationship_entries app]. f_equal.
      rewrite relationship_entries_tabs. f_equal.
      unfold truncation. simpl length.
      destruct (decide (_ < length items)), (decide (_ < S (length items)));
        (reflexivity || lia).
Qed.

Lemma format_common_anc_rels_spec (self : ConsFormatter) (ped_index : nat)
    (rel : relationships) (half : bool) (generations : Z)
    (active_gender spouse_gender : Gender) :
  NoDup (keys rel) →
  format_common_anc_rels self ped_index rel half generations
    active_gender spouse_gender
  = ok (relationships_closed ped_index half generations active_gender rel).
Proof.
  intros Hnd. unfold format_common_anc_rels, relationships_closed.
  assert (Hget : ∀ k v, (k, v) ∈ rel → getitem rel k = ok v)
    by (intros; by apply getitem_NoDup).
  assert (Hlen : length (keys rel) = length rel)
    by (unfold keys; apply length_fmap).
  rewrite Hlen.
  unfold relationships_header, first_tabs.
  destruct (decide (1 < length rel)) as [Hp|Hp].
  - rewrite (bool_decide_eq_true_2 _ Hp).
    rewrite (anc_rels_loop_spec _ _ _ _ _ rel Hget).
    unfold ok at 1. rewrite bind_inr.
    replace (RELATIONSHIP_LIMIT - 0) with RELATIONSHIP_LIMIT by lia.
    reflexivity.
  - rewrite (bool_decide_eq_false_2 _ Hp).
    rewrite (anc_rels_loop_spec _ _ _ _ _ rel Hget).
    unfold ok at 1. rewrite bind_inr.
    replace (RELATIONSHIP_LIMIT - 0) with RELATIONSHIP_LIMIT by lia.
    reflexivity.
Qed.

(** ** Loops *)

Lemma for_each_spec {A} (body : A → contents → result contents) :
  appends body →
  ∀ (l : list A) (outstr : contents),
    for_each body l outstr
    = (blocks ← mapM (λ x, body x []) l;
       mret (outstr ++ concat blocks)%list).
Proof.
  intros Happ. induction l as [|x l IH]; intros outstr.
  - simpl. by rewrite app_nil_r.
  - cbn [for_each mapM]. rewrite Happ.
    destruct (body x []) as [e|b]; [reflexivity|].
    cbn. rewrite IH.
    destruct (mapM (λ x0, body x0 []) l) as [e|bs]; [reflexivity|].
    cbn. by rewrite app_assoc.
Qed.

Lemma for_each_limit_spec {A} (limit : nat) (more : string)
    (body : A → contents → result contents) :
  appends body →
  ∀ (l : list A) (count : nat) (outstr : contents),
    for_each_limit limit more body l count outstr
    = (blocks ← mapM (λ x, body x []) (take (limit - count) l);
       mret (outstr ++ concat blocks
             ++ truncation (limit - count) (length l) more)%list).
Proof.
  intros Happ. induction l as [|x l IH]; intros count outstr.
  - rewrite take_nil. unfold truncation.
    rewrite decide_False by (simpl; lia). simpl. by rewrite app_nil_r.
  - cbn [for_each_limit].
    destruct (decide (limit < count + 1)) as [Hlim|Hlim].
    + replace (limit - count) with 0 by lia.
      unfold truncation. rewrite decide_True by (simpl; lia). reflexivity.
    + replace (limit - count) with (S (limit - (count + 1))) by lia.
      rewrite firstn_cons. cbn [mapM]. rewrite Happ.
      destruct (body x []) as [e|b]; [reflexivity|].
      cbn. rewrite IH.
      destruct (mapM _ (take _ l)) as [e|bs]; [reflexivity|].
      cbn. f_equal. rewrite <- !app_assoc. do 3 f_equal.
      unfold truncation. simpl length.
      destruct (decide (_ < length l)), (decide (_ < S (length l)));
        (reflexivity || lia).
Qed.

Lemma common_ancestor_names_loop_for_each (self : ConsFormatter)
    (pedigree : Pedigree CA) (l : list positive) (outstr : contents) :
  common_ancestor_names_loop self pedigree l outstr
  = for_each (common_ancestor_names_body self pedigree) l outstr.
Proof.
  revert outstr. induction l as [|x l IH]; intros outstr; [done|].
  cbn [common_ancestor_names_loop for_each].
  destruct (common_ancestor_names_body self pedigree x outstr); [done|].
  cbn. apply IH.
Qed.

Lemma collapse_groups_loop_for_each (self : ConsFormatter) (gens : Z)
    (items : pydict (list positive) relationships) (outstr : contents) :
  collapse_groups_loop self gens items outstr
  = for_each (collapse_group_body self gens) items outstr.
Proof.
  revert outstr. induction items as [|x l IH]; intros outstr; [done|].
  cbn [collapse_groups_loop for_each].
  destruct (collapse_group_body self gens x outstr); [done|].
  cbn. apply IH.
Qed.

Lemma collapse_loop_for_each (self : ConsFormatter)
    (ped_collapse : gmap positive CA) (descnums : list positive)
    (count : nat) (outstr : contents) :
  collapse_loop self ped_collapse descnums count outstr
  = for_each_limit PED_COLLAPSE_LIMIT more_ped_collapse
      (collapse_body self ped_collapse) descnums count outstr.
Proof.
  revert count outstr.
  induction descnums as [|x l IH]; intros count outstr; [done|].
  cbn [collapse_loop for_each_limit].
  destruct (decide (PED_COLLAPSE_LIMIT < count + 1)); [done|].
  destruct (collapse_body self ped_collapse x outstr); [done|].
  cbn. apply IH.
Qed.

Lemma spouse_groups_loop_for_each (self : ConsFormatter) (spouse_num : nat)
    (spouse_pedigree : Pedigree CA) (spouse_gender : Gender)
    (items : pydict (list positive) relationships) (count : nat)
    (outstr : contents) :
  spouse_groups_loop self spouse_num spouse_pedigree spouse_gender
    items count outstr
  = for_each_limit PED_COLLAPSE_LIMIT more_spouse_rels
      (spouse_group_body self spouse_num spouse_pedigree spouse_gender)
      items count outstr.
Proof.
  revert count outstr.
  induction items as [|x l IH]; intros count outstr; [done|].
  cbn [spouse_groups_loop for_each_limit].
  destruct (decide (PED_COLLAPSE_LIMIT < count + 1)); [done|].
  destruct (spouse_group_body _ _ _ _ x outstr); [done|].
  cbn. apply IH.
Qed.

Lemma collapse_group_body_appends (self : ConsFormatter) (gens : Z) :
  appends (collapse_group_body self gens).
Proof.
  intros [primnums ancs] outstr. unfold collapse_group_body.
  destruct (format_common_anc_rels _ _ _ _ _ _ _) as [e|s1]; [done|].
  cbn. destruct (format_common_ancestor_names _ _ _) as [e|s2]; [done|].
  cbn. unfold SimpleStringBuffer.add. by rewrite <- app_assoc.
Qed.

Lemma spouse_group_body_appends (self : ConsFormatter) (spouse_num : nat)
    (spouse_pedigree : Pedigree CA) (spouse_gender : Gender) :
  appends (spouse_group_body self spouse_num spouse_pedigree spouse_gender).
Proof.
  intros [primnums ancs] outstr. unfold spouse_group_body.
  destruct (format_common_anc_rels _ _ _ _ _ _ _) as [e|s1]; [done|].
  cbn. destruct (format_common_ancestor_names _ _ _) as [e|s2]; [done|].
  cbn. unfold SimpleStringBuffer.add. by rewrite <- app_assoc.
Qed.

Lemma collapse_body_appends (self : ConsFormatter)
    (ped_collapse : gmap positive CA) :
  appends (collapse_body self ped_collapse).
Proof.
  intros descnum outstr. unfold collapse_body.
  destruct (ped_collapse !! descnum) as [ca|]; [|done]. cbn.
  destruct (get_ancestor_by_number _ (descnum * 2)) as [father|]; [|done].
  cbn.
  destruct (get_ancestor_by_number _ (descnum * 2 + 1)) as [mother|];
    [|done].
  cbn.
  destruct (format_person _ (get_person_handle father) _ _ _ _ _)
    as [e|s1]; [done|]. cbn.
  destruct (format_person _ (get_person_handle mother) _ _ _ _ _)
    as [e|s2]; [done|]. cbn.
  rewrite !collapse_groups_loop_for_each.
  rewrite !(for_each_spec _ (collapse_group_body_appends self _)).
  destruct (mapM _ _) as [e|blocks]; [done|]. cbn.
  unfold SimpleStringBuffer.add. f_equal.
  by rewrite <- !app_assoc.
Qed.

(** What the body of the loop over the common descendants returns: the
    heading of the common descendant, the lines of the father and of the
    mother, the groups of common ancestors and an empty line. *)
Lemma collapse_body_block (self : ConsFormatter)
    (ped_collapse : gmap positive CA) (descnum : positive)
    (block : contents) :
  collapse_body self ped_collapse descnum [] = ok block →
  ∃ comm_anc father mother father_line mother_line groups,
    ped_collapse !! descnum = Some comm_anc
    ∧ get_ancestor_by_number (pedigree self) (descnum * 2) = Some father
    ∧ get_ancestor_by_number (pedigree self) (descnum * 2 + 1)
      = Some mother
    ∧ format_person (db self) (get_person_handle father) TAB NL
        true true false = ok father_line
    ∧ format_person (db self) (get_person_handle mother) TAB NL
        true true false = ok mother_line
    ∧ collapse_groups_loop self (int_log_2 descnum + 1)
        (order_ancestor_list (pedigree self) comm_anc) [] = ok groups
    ∧ block
      = (("<b>"
          ++ format_relationship MSG_PED_COLLAPSE_AT
               (get_plural_relationship_string (int_log_2 descnum + 1) 0)
          ++ "</b>" ++ NL)%string
         :: father_line :: mother_line :: groups ++ [NL])%list.
Proof.
  unfold collapse_body.
  destruct (ped_collapse !! descnum) as [comm_anc|]; [|done].
  cbn [of_option]. unfold ok at 1. rewrite bind_inr.
  destruct (get_ancestor_by_number _ (descnum * 2)) as [father|]; [|done].
  cbn [of_option]. unfold ok at 1. rewrite bind_inr.
  destruct (get_ancestor_by_number _ (descnum * 2 + 1)) as [mother|];
    [|done].
  cbn [of_option]. unfold ok at 1. rewrite bind_inr.
  destruct (format_person _ (get_person_handle father) _ _ _ _ _)
    as [e|father_line] eqn:Hfather; [done|]. rewrite bind_inr.
  destruct (format_person _ (get_person_handle mother) _ _ _ _ _)
    as [e|mother_line] eqn:Hmother; [done|]. rewrite bind_inr.
  rewrite collapse_groups_loop_for_each.
  rewrite (for_each_spec _ (collapse_group_body_appends self _)).
  destruct (mapM _ _) as [e|blocks] eqn:Hgroups; [done|].
  rewrite !bind_inr. intros [= <-].
  exists comm_anc, father, mother, father_line, mother_line, (concat blocks).
  do 3 (split; [reflexivity|]).
  split; [exact Hfather|]. split; [exact Hmother|].
  split.
  - rewrite collapse_groups_loop_for_each.
    rewrite (for_each_spec _ (collapse_group_body_appends self _)).
    rewrite Hgroups. reflexivity.
  - reflexivity.
Qed.

Lemma get_pedigree_collapse_spec (self : ConsFormatter) :
  has_pedigree_collapse (pedigree self) = true →
  let ped_collapse := determine_pedigree_collapse (pedigree self) None in
  get_pedigree_collapse self
  = (blocks ← mapM (λ descnum, collapse_body self ped_collapse descnum [])
                (take PED_COLLAPSE_LIMIT (sorted_keys ped_collapse));
     mret (join (collapse_title
                 :: concat blocks
                 ++ truncation PED_COLLAPSE_LIMIT
                      (length (sorted_keys ped_collapse))
                      more_ped_collapse)%list)).
Proof.
  intros Hhas ped_collapse. unfold get_pedigree_collapse.
  rewrite Hhas. cbn [negb].
  fold ped_collapse. rewrite collapse_loop_for_each.
  rewrite (for_each_limit_spec _ _ _ (collapse_body_appends self _)).
  replace (PED_COLLAPSE_LIMIT - 0) with PED_COLLAPSE_LIMIT by lia.
  destruct (mapM _ _) as [e|blocks]; [done|]. reflexivity.
Qed.

(** ** Sorted keys *)

Lemma sorted_keys_Permutation {V} (d : gmap positive V) :
  sorted_keys d ≡ₚ elements (dom d).
Proof. apply merge_sort_Permutation. Qed.

Lemma elem_of_sorted_keys {V} (d : gmap positive V) (n : positive) :
  n ∈ sorted_keys d ↔ is_Some (d !! n).
Proof.
  rewrite sorted_keys_Permutation, elem_of_elements. apply elem_of_dom.
Qed.

Lemma length_sorted_keys {V} (d : gmap positive V) :
  length (sorted_keys d) = size d.
Proof.
  rewrite sorted_keys_Permutation, <- size_dom. reflexivity.
Qed.

Lemma NoDup_sorted_keys {V} (d : gmap positive V) : NoDup (sorted_keys d).
Proof. rewrite sorted_keys_Permutation. apply NoDup_elements. Qed.

Lemma StronglySorted_le_lt (l : list positive) :
  NoDup l → StronglySorted Pos.le l → StronglySorted Pos.lt l.
Proof.
  induction 2 as [|x l Hs IH Hall]; constructor.
  - apply IH. by eapply NoDup_cons_1_2.
  - apply NoDup_cons in H as [Hx _].
    rewrite Forall_forall in *. intros y Hy.
    destruct (decide (x = y)) as [->|Hne]; [done|].
    specialize (Hall y Hy). lia.
Qed.

Lemma sorted_keys_ascending {V} (d : gmap positive V) :
  StronglySorted Pos.lt (sorted_keys d).
Proof.
  apply StronglySorted_le_lt; [apply NoDup_sorted_keys|].
  apply StronglySorted_merge_sort; apply _.
Qed.

Lemma mapM_ok_length {A B} (f : A → result B) (l : list A) (k : list B) :
  mapM f l = ok k → length k = length l.
Proof.
  revert k. induction l as [|x l IH]; intros k; cbn.
  - by intros [= <-].
  - destruct (f x) as [e|y]; [done|]. cbn.
    destruct (mapM f l) as [e|ys]; [done|]. cbn.
    intros [= <-]. simpl. f_equal. by apply IH.
Qed.

(** ** The groups of common ancestors *)

Lemma collapse_group_body_spec (self : ConsFormatter) (gens : Z)
    (primnums : list positive) (ancs : relationships) (outstr : contents) :
  NoDup (keys ancs) →
  collapse_group_body self gens (primnums, ancs) outstr
  = (names ← format_common_ancestor_names self (pedigree self) primnums;
     mret (outstr
           ++ [relationships_closed 0 (bool_decide (length primnums = 1))
                 gens MALE ancs;
               names])%list).
Proof.
  intros Hnd. unfold collapse_group_body.
  rewrite format_common_anc_rels_spec by done.
  unfold ok at 1. rewrite bind_inr.
  destruct (format_common_ancestor_names _ _ _) as [e|names]; [done|].
  rewrite !bind_inr. unfold SimpleStringBuffer.add. rewrite <- app_assoc.
  reflexivity.
Qed.

Lemma spouse_group_body_spec (self : ConsFormatter) (spouse_num : nat)
    (spouse_pedigree : Pedigree CA) (spouse_gender : Gender)
    (primnums : list positive) (ancs : relationships) (outstr : contents) :
  NoDup (keys ancs) →
  spouse_group_body self spouse_num spouse_pedigree spouse_gender
    (primnums, ancs) outstr
  = (names ← format_common_ancestor_names self spouse_pedigree primnums;
     mret (outstr
           ++ [relationships_closed spouse_num
                 (bool_decide (length primnums = 1)) 1 (gender self) ancs;
               names])%list).
Proof.
  intros Hnd. unfold spouse_group_body.
  rewrite format_common_anc_rels_spec by done.
  unfold ok at 1. rewrite bind_inr.
  destruct (format_common_ancestor_names _ _ _) as [e|names]; [done|].
  rewrite !bind_inr. unfold SimpleStringBuffer.add. rewrite <- app_assoc.
  reflexivity.
Qed.

(** ** The gender of the active person *)

Lemma common_ancestor_names_loop_gender (self : ConsFormatter) (g : Gender)
    (pedigree : Pedigree CA) (l : list positive) (outstr : contents) :
  common_ancestor_names_loop (with_gender self g) pedigree l outstr
  = common_ancestor_names_loop self pedigree l outstr.
Proof.
  revert outstr. induction l as [|x l IH]; intros outstr; [done|].
  cbn [common_ancestor_names_loop].
  change (common_ancestor_names_body (with_gender self g) pedigree x outstr)
    with (common_ancestor_names_body self pedigree x outstr).
  destruct (common_ancestor_names_body self pedigree x outstr); [done|].
  cbn. apply IH.
Qed.

Lemma collapse_groups_loop_gender (self : ConsFormatter) (g : Gender)
    (gens : Z) (items : pydict (list positive) relationships)
    (outstr : contents) :
  collapse_groups_loop (with_gender self g) gens items outstr
  = collapse_groups_loop self gens items outstr.
Proof.
  revert outstr.
  induction items as [|[primnums ancs] l IH]; intros outstr; [done|].
  cbn [collapse_groups_loop].
  assert (collapse_group_body (with_gender self g) gens (primnums, ancs) outstr
          = collapse_group_body self gens (primnums, ancs) outstr) as ->.
  { unfold collapse_group_body, format_common_ancestor_names.
    cbn [pedigree with_gender].
    by rewrite !common_ancestor_names_loop_gender. }
  destruct (collapse_group_body self gens (primnums, ancs) outstr); [done|].
  cbn. apply IH.
Qed.

Lemma collapse_loop_gender (self : ConsFormatter) (g : Gender)
    (ped_collapse : gmap positive CA) (descnums : list positive)
    (count : nat) (outstr : contents) :
  collapse_loop (with_gender self g) ped_collapse descnums count outstr
  = collapse_loop self ped_collapse descnums count outstr.
Proof.
  revert count outstr.
  induction descnums as [|x l IH]; intros count outstr; [done|].
  cbn [collapse_loop].
  destruct (decide (PED_COLLAPSE_LIMIT < count + 1)); [done|].
  assert (collapse_body (with_gender self g) ped_collapse x outstr
          = collapse_body self ped_collapse x outstr) as ->.
  { unfold collapse_body. cbn [pedigree db with_gender].
    destruct (ped_collapse !! x); [|done]. cbn.
    destruct (get_ancestor_by_number _ (x * 2)); [|done]. cbn.
    destruct (get_ancestor_by_number _ (x * 2 + 1)); [|done]. cbn.
    destruct (format_person _ _ _ _ _ _ _); [done|]. cbn.
    destruct (format_person _ _ _ _ _ _ _); [done|]. cbn.
    by rewrite collapse_groups_loop_gender. }
  destruct (collapse_body self ped_collapse x outstr); [done|].
  cbn. apply IH.
Qed.

Lemma get_pedigree_collapse_gender (self : ConsFormatter) (g : Gender) :
  get_pedigree_collapse (with_gender self g) = get_pedigree_collapse self.
Proof.
  unfold get_pedigree_collapse. cbn [pedigree with_gender].
  destruct (negb _); [done|]. by rewrite collapse_loop_gender.
Qed.

Lemma truncation_iff (limit n : nat) (more : string) :
  (limit < n → truncation limit n more = [more])
  ∧ ((n ≤ limit)%nat → truncation limit n more = []).
Proof.
  unfold truncation. split; intros H.
  - by rewrite decide_True.
  - rewrite decide_False; [done|lia].
Qed.

(** ** Occurrences in the output *)

Lemma append_inj_l (s t u : string) : s ++ t = s ++ u → t = u.
Proof.
  induction s as [|c s IH]; [done|].
  rewrite !append_cons. intros [= H]. by apply IH.
Qed.

Lemma occurs_middle (pre u post : string) : occurs u (pre ++ u ++ post).
Proof. by exists pre, post. Qed.

Lemma occurs_append_r (u s t : string) : occurs u s → occurs u (t ++ s).
Proof.
  intros (pre & post & ->). exists (t ++ pre), post.
  by rewrite append_assoc.
Qed.

Lemma occurs_append_l (u s t : string) : occurs u s → occurs u (s ++ t).
Proof.
  intros (pre & post & ->). exists pre, (post ++ t).
  by rewrite !append_assoc.
Qed.

Lemma occurs_join (x : string) (l : list string) :
  x ∈ l → occurs x (join l).
Proof.
  induction l as [|y l IH]; [by intros ?%elem_of_nil|].
  rewrite join_cons. intros [->|Hx]%elem_of_cons.
  - exists EmptyString, (join l). reflexivity.
  - by apply occurs_append_r, IH.
Qed.

Lemma occurs_trans (u s t : string) : occurs u s → occurs s t → occurs u t.
Proof.
  intros Hu (pre & post & ->).
  by apply occurs_append_r, occurs_append_l.
Qed.

(** Every relationship of a sequence has its piece among the pieces of the
    sequence, after some tabulation. *)
Lemma elem_of_relationship_entries (ped_index : nat) (half : bool)
    (generations : Z) (active_gender : Gender) (tabs : string)
    (items : list ((Z * Z) * rellist)) (item : (Z * Z) * rellist) :
  item ∈ items →
  ∃ tabs',
    relationship_entry ped_index half generations active_gender tabs' item
    ∈ relationship_entries ped_index half generations active_gender tabs
        items.
Proof.
  destruct items as [|first rest]; [by intros ?%elem_of_nil|].
  intros [->|Hin]%elem_of_cons; cbn [relationship_entries].
  - exists tabs. apply list_elem_of_here.
  - exists (TAB ++ TAB ++ TAB). apply list_elem_of_further.
    by apply list_elem_of_fmap_2.
Qed.

(** The piece of a relationship holds its text between the end of the
    opening tag of the link and the closing tag. *)
Lemma occurs_relationship_entry (ped_index : nat) (half : bool)
    (generations : Z) (active_gender : Gender) (tabs : string)
    (item : (Z * Z) * rellist) :
  occurs (">" ++ relationship_text half generations active_gender item.1
                   (length item.2) ++ "</a>")
    (relationship_entry ped_index half generations active_gender tabs item).
Proof.
  unfold relationship_entry.
  exists (tabs ++ "<a href=" ++ DQ
          ++ ("N " ++ pretty ped_index ++ " "
              ++ rellist_str_loop item.2 EmptyString) ++ DQ), NL.
  by rewrite !append_assoc.
Qed.

Lemma occurs_relationships_closed (ped_index : nat) (half : bool)
    (generations : Z) (active_gender : Gender) (rel : relationships)
    (relnum : Z * Z) (rellist : rellist) :
  (relnum, rellist) ∈ take RELATIONSHIP_LIMIT rel →
  occurs (">" ++ relationship_text half generations active_gender relnum
                   (length rellist) ++ "</a>")
    (relationships_closed ped_index half generations active_gender rel).
Proof.
  intros Hin. unfold relationships_closed.
  destruct (elem_of_relationship_entries ped_index half generations
              active_gender (first_tabs (length rel)) _ _ Hin)
    as [tabs' Hentry].
  eapply occurs_trans;
    [exact (occurs_relationship_entry ped_index half generations
              active_gender tabs' (relnum, rellist))|].
  apply occurs_join. apply list_elem_of_further.
  apply elem_of_app. by left.
Qed.

(** ** Bytes below 128 *)

Lemma isascii_append (s t : string) :
  isascii (s ++ t) = isascii s && isascii t.
Proof.
  induction s as [|c s IH]; [done|].
  rewrite append_cons. cbn [isascii]. rewrite IH. by rewrite andb_assoc.
Qed.

Lemma isascii_occurs (u s : string) :
  occurs u s → isascii s = true → isascii u = true.
Proof.
  intros (pre & post & ->). rewrite !isascii_append.
  by intros [_ [? _]%andb_true_iff]%andb_true_iff.
Qed.

Lemma isascii_pretty_N_go (x : N) (s : string) :
  isascii s = true → isascii (pretty_N_go x s) = true.
Proof.
  revert s. induction (N.lt_wf_0 x) as [x _ IH]; intros s Hs.
  destruct (decide (x = 0)%N) as [->|Hx]; [by rewrite pretty_N_go_0|].
  rewrite pretty_N_go_step by lia.
  apply IH; [apply N.div_lt; lia|].
  cbn [isascii]. rewrite Hs, andb_true_r.
  unfold pretty_N_char. by repeat case_match.
Qed.

Lemma isascii_pretty_nat (n : nat) : isascii (pretty n) = true.
Proof.
  unfold pretty, pretty_nat, pretty, pretty_N.
  case_decide; [done|]. by apply isascii_pretty_N_go.
Qed.

(** ** The claims on the formatter *)

(** C6, as amended.  What the limit counts is the common descendants, the
    keys of the collapse dictionary, and not the duplicate groups.  When
    the pedigree has collapse, [get_pedigree_collapse] prints the title,
    one entry per common descendant for the first [PED_COLLAPSE_LIMIT]
    keys of the dictionary in ascending order, and the line
    [more_ped_collapse] exactly when the dictionary has more keys than the
    limit; it raises only what the entry of a reported key raises.  An
    entry is never empty: it starts with the heading of its common
    descendant, holds the lines of the father at [2 * descnum] and of the
    mother at [2 * descnum + 1] and the groups of common ancestors, and
    ends with an empty line.  The keys are visited in strictly ascending
    order, they are the keys of the dictionary; with more keys than the
    limit exactly [PED_COLLAPSE_LIMIT] entries precede the line, and with
    no more keys than the limit every key has its entry and there is no
    line. *)
Theorem C6_truncation_in_ascending_order :
  ∀ (self : ConsFormatter),
    has_pedigree_collapse (pedigree self) = true →
    let ped_collapse := determine_pedigree_collapse (pedigree self) None in
    let reported := take PED_COLLAPSE_LIMIT (sorted_keys ped_collapse) in
    get_pedigree_collapse self
    = (blocks ← mapM (λ descnum, collapse_body self ped_collapse descnum [])
                  reported;
       mret (join (collapse_title
                   :: concat blocks
                   ++ truncation PED_COLLAPSE_LIMIT (size ped_collapse)
                        more_ped_collapse)%list))
    ∧ (∀ blocks,
         mapM (λ descnum, collapse_body self ped_collapse descnum []) reported
         = ok blocks →
         length blocks = PED_COLLAPSE_LIMIT `min` size ped_collapse)
    ∧ (∀ descnum block,
         collapse_body self ped_collapse descnum [] = ok block →
         ∃ comm_anc father mother father_line mother_line groups,
           ped_collapse !! descnum = Some comm_anc
           ∧ get_ancestor_by_number (pedigree self) (descnum * 2)
             = Some father
           ∧ get_ancestor_by_number (pedigree self) (descnum * 2 + 1)
             = Some mother
           ∧ format_person (db self) (get_person_handle father) TAB NL
               true true false = ok father_line
           ∧ format_person (db self) (get_person_handle mother) TAB NL
               true true false = ok mother_line
           ∧ collapse_groups_loop self (int_log_2 descnum + 1)
               (order_ancestor_list (pedigree self) comm_anc) []
             = ok groups
           ∧ block
             = (("<b>"
                 ++ format_relationship MSG_PED_COLLAPSE_AT
                      (get_plural_relationship_string
                         (int_log_2 descnum + 1) 0)
                 ++ "</b>" ++ NL)%string
                :: father_line :: mother_line :: groups ++ [NL])%list)
    ∧ StronglySorted Pos.lt (sorted_keys ped_collapse)
    ∧ (∀ descnum,
         descnum ∈ sorted_keys ped_collapse ↔ is_Some (ped_collapse !! descnum))
    ∧ (PED_COLLAPSE_LIMIT < size ped_collapse →
       length reported = PED_COLLAPSE_LIMIT
       ∧ truncation PED_COLLAPSE_LIMIT (size ped_collapse) more_ped_collapse
         = [more_ped_collapse])
    ∧ ((size ped_collapse ≤ PED_COLLAPSE_LIMIT)%nat →
       reported = sorted_keys ped_collapse
       ∧ truncation PED_COLLAPSE_LIMIT (size ped_collapse) more_ped_collapse
         = []).
Proof.
  intros self Hhas ped_collapse reported.
  split; [|split; [|split; [|split; [|split; [|split]]]]].
  - rewrite <- length_sorted_keys. by apply get_pedigree_collapse_spec.
  - intros blocks Hblocks. apply mapM_ok_length in Hblocks.
    rewrite Hblocks. unfold reported.
    by rewrite length_take, length_sorted_keys.
  - intros descnum block. apply collapse_body_block.
  - apply sorted_keys_ascending.
  - apply elem_of_sorted_keys.
  - intros Hmore. split.
    + unfold reported. rewrite length_take, length_sorted_keys. lia.
    + by apply truncation_iff.
  - intros Hfew. split.
    + unfold reported. apply take_ge. rewrite length_sorted_keys. lia.
    + by apply truncation_iff.
Qed.

(** C2, as amended.  The numbers of entries are capped at the constants of
    the module, [PED_COLLAPSE_LIMIT] = 10 and [RELATIONSHIP_LIMIT] = 8,
    which no caller supplies: the loop over the common descendants of a
    self-collapse query and the loop over the groups of common ancestors of
    a couple run their body on the first [PED_COLLAPSE_LIMIT] elements
    only, and [format_common_anc_rels] prints the first
    [RELATIONSHIP_LIMIT] relationships of a group only; each of them adds
    its line for the rest exactly when there are more elements than the
    limit. *)
Theorem C2_entries_capped_at_module_constants :
  PED_COLLAPSE_LIMIT = 10 ∧ RELATIONSHIP_LIMIT = 8
  ∧ (∀ (self : ConsFormatter) (ped_collapse : gmap positive CA)
       (descnums : list positive) (outstr : contents),
        collapse_loop self ped_collapse descnums 0 outstr
        = (blocks ← mapM (λ descnum,
                            collapse_body self ped_collapse descnum [])
                      (take PED_COLLAPSE_LIMIT descnums);
           mret (outstr ++ concat blocks
                 ++ truncation PED_COLLAPSE_LIMIT (length descnums)
                      more_ped_collapse)%list))
  ∧ (∀ (self : ConsFormatter) (spouse_num : nat)
       (spouse_pedigree : Pedigree CA) (spouse_gender : Gender)
       (items : pydict (list positive) relationships) (outstr : contents),
        spouse_groups_loop self spouse_num spouse_pedigree spouse_gender
          items 0 outstr
        = (blocks ← mapM (λ item,
                            spouse_group_body self spouse_num spouse_pedigree
                              spouse_gender item [])
                      (take PED_COLLAPSE_LIMIT items);
           mret (outstr ++ concat blocks
                 ++ truncation PED_COLLAPSE_LIMIT (length items)
                      more_spouse_rels)%list))
  ∧ (∀ (self : ConsFormatter) (ped_index : nat) (rel : relationships)
       (half : bool) (generations : Z) (active_gender spouse_gender : Gender),
        NoDup (keys rel) →
        format_common_anc_rels self ped_index rel half generations
          active_gender spouse_gender
        = ok (join (relationships_header (length rel)
                    :: relationship_entries ped_index half generations
                         active_gender (first_tabs (length rel))
                         (take RELATIONSHIP_LIMIT rel)
                    ++ truncation RELATIONSHIP_LIMIT (length rel)
                         more_rels)%list)
        ∧ length (relationship_entries ped_index half generations
                    active_gender (first_tabs (length rel))
                    (take RELATIONSHIP_LIMIT rel))
          = RELATIONSHIP_LIMIT `min` length rel)
  ∧ (∀ {A} (l : list A) (limit : nat) (more : string),
        (length (take limit l) ≤ limit)%nat
        ∧ (limit < length l → truncation limit (length l) more = [more])
        ∧ ((length l ≤ limit)%nat → truncation limit (length l) more = [])).
Proof.
  split; [reflexivity|]. split; [reflexivity|].
  split; [|split; [|split]].
  - intros self ped_collapse descnums outstr.
    rewrite collapse_loop_for_each.
    rewrite (for_each_limit_spec _ _ _ (collapse_body_appends self _)).
    by replace (PED_COLLAPSE_LIMIT - 0) with PED_COLLAPSE_LIMIT by lia.
  - intros self spouse_num spouse_pedigree spouse_gender items outstr.
    rewrite spouse_groups_loop_for_each.
    rewrite (for_each_limit_spec _ _ _
               (spouse_group_body_appends self _ _ _)).
    by replace (PED_COLLAPSE_LIMIT - 0) with PED_COLLAPSE_LIMIT by lia.
  - intros self ped_index rel half generations active_gender spouse_gender
      Hnd.
    split; [by apply format_common_anc_rels_spec|].
    rewrite <- (length_take rel RELATIONSHIP_LIMIT).
    destruct (take RELATIONSHIP_LIMIT rel) as [|item rest]; [done|].
    simpl. by rewrite length_fmap.
  - intros A l limit more. split; [rewrite length_take; lia|].
    apply truncation_iff.
Qed.

(** C3.  A group of common ancestors is printed as half exactly when its
    tuple of primary ancestor numbers has one element: in a self-collapse
    query and in a couple query alike, the relationships of the group
    [(primnums, ancs)] are printed with the flag
    [length primnums = 1].  The text of every relationship of a group with
    one primary number carries [HALF_MARK] after a comma, and the text of
    a relationship of any other group carries no mark.  The mark is the
    literal of the source: a space and the bytes 195 130 194 189, of which
    the last two are the UTF-8 encoding of the sign ½ (U+00BD) and the two
    before them that of the letter Â (U+00C2), so that the sign ½ occurs
    in the mark.  The mark is rendered: the
    text of each of the first [RELATIONSHIP_LIMIT] relationships stands in
    the printed group, inside its link.  The text of a half relationship
    differs from the text the same relationship has when it is full, and
    what the formatter puts after the name of a full relationship is below
    128 throughout, so that it holds no mark. *)
Theorem C3_half_iff_one_primary_number :
  ∀ (self : ConsFormatter) (gens : Z) (spouse_num : nat)
    (spouse_pedigree : Pedigree CA) (spouse_gender : Gender)
    (primnums : list positive) (ancs : relationships) (outstr : contents),
    NoDup (keys ancs) →
    let half := bool_decide (length primnums = 1) in
    collapse_group_body self gens (primnums, ancs) outstr
    = (names ← format_common_ancestor_names self (pedigree self) primnums;
       mret (outstr
             ++ [relationships_closed 0 half gens MALE ancs; names])%list)
    ∧ spouse_group_body self spouse_num spouse_pedigree spouse_gender
        (primnums, ancs) outstr
      = (names ← format_common_ancestor_names self spouse_pedigree primnums;
         mret (outstr
               ++ [relationships_closed spouse_num half 1 (gender self) ancs;
                   names])%list)
    ∧ (∀ (generations : Z) (active_gender : Gender) (relnum : Z * Z)
         (num_rels : nat),
          let removes :=
            presented_first active_gender
              (relnum.1 - generations)%Z (relnum.2 - generations)%Z in
          relationship_text half generations active_gender relnum num_rels
          = get_plural_relationship_string removes.1 removes.2
            ++ (if decide (length primnums = 1) then "," ++ HALF_MARK
                else if decide (1 < num_rels) then "," else EmptyString)
            ++ (if decide (1 < num_rels) then " x" ++ pretty num_rels
                else EmptyString))
    ∧ bytes HALF_MARK = [32; 195; 130; 194; 189]
    ∧ bytes "½" = [194; 189]
    ∧ occurs "½" HALF_MARK
    ∧ (∀ (ped_index : nat) (generations : Z) (active_gender : Gender)
         (relnum : Z * Z) (rellist : rellist),
          (relnum, rellist) ∈ take RELATIONSHIP_LIMIT ancs →
          occurs (">" ++ relationship_text half generations active_gender
                           relnum (length rellist) ++ "</a>")
            (relationships_closed ped_index half generations active_gender
               ancs))
    ∧ (∀ (generations : Z) (active_gender : Gender) (relnum : Z * Z)
         (num_rels : nat),
          relationship_text true generations active_gender relnum num_rels
          ≠ relationship_text false generations active_gender relnum
              num_rels)
    ∧ (∀ (generations : Z) (active_gender : Gender) (relnum : Z * Z)
         (num_rels : nat),
          let removes :=
            presented_first active_gender
              (relnum.1 - generations)%Z (relnum.2 - generations)%Z in
          ∃ rest,
            relationship_text false generations active_gender relnum
              num_rels
            = get_plural_relationship_string removes.1 removes.2 ++ rest
            ∧ isascii rest = true
            ∧ ¬ occurs HALF_MARK rest).
Proof.
  intros self gens spouse_num spouse_pedigree spouse_gender primnums ancs
    outstr Hnd half.
  split; [by apply collapse_group_body_spec|].
  split; [by apply spouse_group_body_spec|].
  split.
  { intros generations active_gender relnum num_rels removes.
    unfold relationship_text, half. fold removes.
    destruct (decide (length primnums = 1)) as [H1|H1].
    - rewrite (bool_decide_eq_true_2 _ H1). cbn [orb].
      by rewrite append_assoc.
    - rewrite (bool_decide_eq_false_2 _ H1). cbn [orb].
      destruct (decide (1 < num_rels)) as [Hn|Hn].
      + by rewrite (bool_decide_eq_true_2 _ Hn).
      + by rewrite (bool_decide_eq_false_2 _ Hn). }
  split; [reflexivity|]. split; [reflexivity|].
  split; [by exists (" " ++ chr 195 ++ chr 130), EmptyString|].
  split.
  { intros ped_index generations active_gender relnum rellist Hin.
    by apply occurs_relationships_closed. }
  split.
  { intros generations active_gender relnum num_rels Heq.
    unfold relationship_text in Heq. cbn [orb] in Heq.
    apply append_inj_l in Heq.
    destruct (decide (1 < num_rels)) as [Hn|Hn].
    - rewrite (bool_decide_eq_true_2 _ Hn) in Heq.
      apply (append_inj_l ",") in Heq.
      apply (f_equal (λ s, String.get 1 s)) in Heq.
      discriminate Heq.
    - rewrite (bool_decide_eq_false_2 _ Hn) in Heq.
      discriminate Heq. }
  intros generations active_gender relnum num_rels removes.
  eexists. split; [reflexivity|].
  assert (Hascii :
    isascii
      ((if false || bool_decide (1 < num_rels) then "," else EmptyString)
       ++ EmptyString
       ++ (if decide (1 < num_rels) then " x" ++ pretty num_rels
           else EmptyString)) = true).
  { rewrite !isascii_append.
    destruct (decide (1 < num_rels)) as [Hn|Hn].
    - rewrite (bool_decide_eq_true_2 _ Hn). cbn [orb].
      rewrite isascii_append, isascii_pretty_nat. reflexivity.
    - rewrite (bool_decide_eq_false_2 _ Hn). reflexivity. }
  split; [exact Hascii|].
  intros Hocc. apply isascii_occurs in Hocc; [|exact Hascii].
  discriminate Hocc.
Qed.

(** C4, as amended.  The two remove values of a relationship are
    [relnum[0] - generations] and [relnum[1] - generations]; the
    relationship calculator receives them in this order when the
    [active_gender] argument of [format_common_anc_rels] is male and
    swapped otherwise, the pair itself being the same.  A couple query
    passes the gender of the active person.  A self-collapse query passes
    [Person.MALE] whoever the active person is, so its output does not
    depend on the gender of the active person. *)
Theorem C4_removes_ordered_by_active_gender :
  (∀ (ped_index : nat) (rel : relationships) (half : bool) (generations : Z)
     (active_gender : Gender) (relnum : Z * Z) (rellist : rellist)
     (tabs : string) (outstr : contents),
      getitem rel relnum = ok rellist →
      anc_rels_body ped_index rel half
        (if half then HALF_MARK else EmptyString)
        generations active_gender relnum tabs outstr
      = ok (outstr
            ++ [(tabs ++ "<a href=" ++ DQ
                 ++ ("N " ++ pretty ped_index ++ " "
                     ++ rellist_str_loop rellist EmptyString)
                 ++ DQ ++ ">"
                 ++ relationship_text half generations active_gender relnum
                      (length rellist)
                 ++ "</a>" ++ NL)%string])%list)
  ∧ (∀ (half : bool) (generations : Z) (active_gender : Gender)
       (relnum : Z * Z) (num_rels : nat),
        ∃ suffix,
          relationship_text half generations active_gender relnum num_rels
          = (if decide (active_gender = MALE)
             then get_plural_relationship_string
                    (relnum.1 - generations)%Z (relnum.2 - generations)%Z
             else get_plural_relationship_string
                    (relnum.2 - generations)%Z (relnum.1 - generations)%Z)
            ++ suffix)
  ∧ (∀ (g : Gender) (removeA removeB : Z),
        presented_first g removeA removeB = (removeA, removeB)
        ∨ presented_first g removeA removeB = (removeB, removeA))
  ∧ (∀ (self : ConsFormatter) (spouse_num : nat)
       (spouse_pedigree : Pedigree CA) (spouse_gender : Gender)
       (primnums : list positive) (ancs : relationships) (outstr : contents),
        NoDup (keys ancs) →
        spouse_group_body self spouse_num spouse_pedigree spouse_gender
          (primnums, ancs) outstr
        = (names ← format_common_ancestor_names self spouse_pedigree primnums;
           mret (outstr
                 ++ [relationships_closed spouse_num
                       (bool_decide (length primnums = 1)) 1 (gender self)
                       ancs;
                     names])%list))
  ∧ (∀ (self : ConsFormatter) (gens : Z) (primnums : list positive)
       (ancs : relationships) (outstr : contents),
        NoDup (keys ancs) →
        collapse_group_body self gens (primnums, ancs) outstr
        = (names ← format_common_ancestor_names self (pedigree self) primnums;
           mret (outstr
                 ++ [relationships_closed 0
                       (bool_decide (length primnums = 1)) gens MALE ancs;
                     names])%list))
  ∧ (∀ (self : ConsFormatter) (g : Gender),
        get_pedigree_collapse (with_gender self g)
        = get_pedigree_collapse self).
Proof.
  split; [|split; [|split; [|split; [|split]]]].
  - intros. by apply anc_rels_body_spec.
  - intros half generations active_gender relnum num_rels.
    unfold relationship_text, presented_first.
    destruct (decide (active_gender = MALE)); eexists; reflexivity.
  - intros g a b. unfold presented_first. destruct (decide (g = MALE)); auto.
  - intros. by apply spouse_group_body_spec.
  - intros. by apply collapse_group_body_spec.
  - apply get_pedigree_collapse_gender.
Qed.

(** ** The pedigree engine: lines of descent *)

Section EngineFacts.

Local Close Scope string_scope.
Import Engine.

Lemma on_line_eq (z n : positive) :
  on_line z n
  = if decide (z = n) then true
    else match n with
         | xH => false
         | xO p | xI p => on_line z p
         end.
Proof using. by destruct n. Qed.

Lemma on_line_refl (n : positive) : on_line n n = true.
Proof using. rewrite on_line_eq. by rewrite decide_True. Qed.

Lemma on_line_unfold (z n : positive) :
  on_line z n = true ↔ z = n ∨ (n ≠ 1%positive ∧ on_line z (parent n) = true).
Proof using.
  rewrite on_line_eq.
  destruct (decide (z = n)) as [->|Hne]; [split; [intros _; by left|done]|].
  destruct n as [p|p|]; simpl.
  - split; [intros H; right; by split|by intros [?|[_ ?]]].
  - split; [intros H; right; by split|by intros [?|[_ ?]]].
  - split; [done|by intros [?|[? _]]].
Qed.

Lemma on_line_le (z n : positive) : on_line z n = true → (z ≤ n)%positive.
Proof using.
  induction n as [p IH|p IH|]; rewrite on_line_eq;
    destruct (decide (z = _)) as [->|Hne]; intros H;
    try lia; try discriminate.
  - specialize (IH H). lia.
  - specialize (IH H). lia.
Qed.

Lemma on_line_child (d n : positive) :
  on_line d n = true → d ≠ n →
  on_line (d~0) n = true ∨ on_line (d~1) n = true.
Proof using.
  induction n as [p IH|p IH|]; rewrite on_line_eq;
    destruct (decide (d = _)) as [->|Hne]; intros H Hd; try done.
  - destruct (decide (d = p)) as [->|Hp].
    + right. apply on_line_refl.
    + destruct (IH H Hp) as [H'|H']; [left|right];
        apply on_line_unfold; right; done.
  - destruct (decide (d = p)) as [->|Hp].
    + left. apply on_line_refl.
    + destruct (IH H Hp) as [H'|H']; [left|right];
        apply on_line_unfold; right; done.
Qed.

Lemma size_parent (n : positive) :
  n ≠ 1%positive → Pos.size_nat n = S (Pos.size_nat (parent n)).
Proof using. by destruct n. Qed.

Lemma converge_on_line (fuel : nat) :
  ∀ x y, Pos.size_nat x + Pos.size_nat y ≤ fuel →
    on_line (converge fuel x y) x = true
    ∧ on_line (converge fuel x y) y = true.
Proof using.
  induction fuel as [|fuel IH]; intros x y Hfuel.
  - destruct x; simpl in Hfuel; lia.
  - simpl. destruct (decide (x = y)) as [->|Hne].
    + split; apply on_line_refl.
    + destruct (decide (x < y)%positive) as [Hlt|Hge].
      * assert (y ≠ 1%positive) as Hy by lia.
        destruct (IH x (parent y)) as [Hx Hpy].
        { rewrite (size_parent y) in Hfuel by done. lia. }
        split; [done|]. apply on_line_unfold. by right.
      * assert (x ≠ 1%positive) as Hx1 by lia.
        destruct (IH (parent x) y) as [Hpx Hy].
        { rewrite (size_parent x) in Hfuel by done. lia. }
        split; [|done]. apply on_line_unfold. by right.
Qed.

Lemma converge_lowest (fuel : nat) :
  ∀ x y z, Pos.size_nat x + Pos.size_nat y ≤ fuel →
    on_line z x = true → on_line z y = true →
    on_line z (converge fuel x y) = true.
Proof using.
  induction fuel as [|fuel IH]; intros x y z Hfuel Hzx Hzy.
  - destruct x; simpl in Hfuel; lia.
  - simpl. destruct (decide (x = y)) as [->|Hne]; [done|].
    destruct (decide (x < y)%positive) as [Hlt|Hge].
    + assert (y ≠ 1%positive) as Hy by lia.
      apply IH; [rewrite (size_parent y) in Hfuel by done; lia|done|].
      apply on_line_unfold in Hzy as [->|[_ ?]]; [|done].
      apply on_line_le in Hzx. lia.
    + assert (x ≠ 1%positive) as Hx1 by lia.
      apply IH; [rewrite (size_parent x) in Hfuel by done; lia| |done].
      apply on_line_unfold in Hzx as [->|[_ ?]]; [|done].
      apply on_line_le in Hzy. lia.
Qed.

(** The collapse point of a pair is the position whose two parents lie one
    on the line of each member of the pair. *)
Lemma collapse_point_couple (a b d : positive) :
  collapse_point a b = Some d →
  (on_line (d~0) a = true ∧ on_line (d~1) b = true)
  ∨ (on_line (d~1) a = true ∧ on_line (d~0) b = true).
Proof using.
  unfold collapse_point.
  destruct (decide (convergence a b = a ∨ convergence a b = b)) as [|Hd];
    [done|].
  intros [= <-]. set (d := convergence a b) in *.
  destruct (converge_on_line _ a b (le_n _)) as [Ha Hb].
  fold (convergence a b) in Ha, Hb.
  fold d in Ha, Hb.
  assert (∀ c, on_line c a = true → on_line c b = true → on_line c d = true)
    as Hlow by (intros c; apply converge_lowest; done).
  assert (∀ c, (d < c)%positive → on_line c a = true → on_line c b = true →
               False) as Hno.
  { intros c Hc Hca Hcb. specialize (Hlow c Hca Hcb).
    apply on_line_le in Hlow. lia. }
  destruct (on_line_child d a Ha) as [Ha0|Ha1];
    [intros E; apply Hd; by left| |];
    (destruct (on_line_child d b Hb) as [Hb0|Hb1];
       [intros E; apply Hd; by right| |]).
  - exfalso. apply (Hno (d~0)%positive); [lia|done|done].
  - by left.
  - by right.
  - exfalso. apply (Hno (d~1)%positive); [lia|done|done].
Qed.

(** ** The pedigree engine: the builder *)

Section BuilderFacts.

Variable getParents : string → option string * option string.

(** A property of the individuals of a tree that passes from a position to
    the positions of its parents. *)
Variable P : positive → string → Prop.
Hypothesis P_father : ∀ n r father,
  P n r → (getParents r).1 = Some father → P (n~0) father.
Hypothesis P_mother : ∀ n r mother,
  P n r → (getParents r).2 = Some mother → P (n~1) mother.

Lemma elem_of_individuals (l : list (positive * slot)) (n : positive)
    (r : string) :
  (n, r) ∈ individuals l ↔ (n, Individual r) ∈ l.
Proof.
  unfold individuals. rewrite list_elem_of_omap. split.
  - intros [[n' s] [Hin Hs]]. destruct s; try done. by injection Hs as -> ->.
  - intros Hin. by exists (n, Individual r).
Qed.

Lemma elem_of_expand_one (n : positive) (r : string) (n' : positive)
    (s : slot) :
  (n', s) ∈ expand_one getParents n r
  ↔ (n' = (n~0)%positive ∧ s = slot_of (getParents r).1)
    ∨ (n' = (n~1)%positive ∧ s = slot_of (getParents r).2).
Proof.
  unfold expand_one. destruct (getParents r) as [father mother]. simpl.
  rewrite !elem_of_cons, elem_of_nil. split.
  - intros [[= -> ->]|[[= -> ->]|[]]]; auto.
  - intros [[-> ->]|[-> ->]]; auto.
Qed.

Lemma elem_of_next (frontier : list (positive * string)) (n' : positive)
    (s : slot) :
  (n', s) ∈ frontier ≫= (λ '(n, ref), expand_one getParents n ref)
  ↔ ∃ n r, (n, r) ∈ frontier ∧ (n', s) ∈ expand_one getParents n r.
Proof.
  rewrite list_elem_of_bind. split.
  - intros [[n r] [H1 H2]]. eauto.
  - intros (n & r & H1 & H2). by exists (n, r).
Qed.

Lemma record_lookup (l : list (positive * slot)) (tree : AncestorTree)
    (n : positive) (s : slot) :
  record l tree !! n = Some s → (n, s) ∈ l ∨ tree !! n = Some s.
Proof.
  induction l as [|[n' s'] l IH]; simpl; [auto|].
  rewrite lookup_insert. destruct (decide (n' = n)) as [->|Hne].
  - intros [= ->]. left. by left.
  - intros H. destruct (IH H); [left; by right|by right].
Qed.

Lemma record_lookup_fresh (l : list (positive * slot)) (tree : AncestorTree)
    (n : positive) :
  (∀ s, (n, s) ∉ l) → record l tree !! n = tree !! n.
Proof.
  induction l as [|[n' s'] l IH]; simpl; intros Hn; [done|].
  rewrite lookup_insert_ne.
  - apply IH. intros s Hs. apply (Hn s). by right.
  - intros ->. apply (Hn s'). by left.
Qed.

Lemma record_lookup_functional (l : list (positive * slot))
    (tree : AncestorTree) (n : positive) (s : slot) :
  (∀ m s1 s2, (m, s1) ∈ l → (m, s2) ∈ l → s1 = s2) →
  (n, s) ∈ l → record l tree !! n = Some s.
Proof.
  induction l as [|[n' s'] l IH]; simpl; intros Hfun Hin.
  - by apply elem_of_nil in Hin.
  - rewrite lookup_insert. destruct (decide (n' = n)) as [->|Hne].
    + f_equal. apply (Hfun n); [by left|done].
    + apply IH.
      * intros m s1 s2 H1 H2. apply (Hfun m); by right.
      * apply elem_of_cons in Hin as [[= ? ?]|?]; [congruence|done].
Qed.

(** The invariant of the expansion: [k] is the length in bits of the
    positions of the frontier. *)
Record expansion_inv (k : nat) (tree : AncestorTree)
    (frontier : list (positive * string)) : Prop := {
  inv_size : ∀ n s, tree !! n = Some s → Pos.size_nat n ≤ k;
  inv_frontier : ∀ n r, (n, r) ∈ frontier →
    Pos.size_nat n = k ∧ tree !! n = Some (Individual r);
  inv_parent : ∀ n s, tree !! n = Some s → n ≠ 1%positive →
    present tree (parent n);
  inv_P : ∀ n r, tree !! n = Some (Individual r) → P n r;
  inv_couple : ∀ n, tree !! n = Some Couple → n = 1%positive
}.

Lemma expansion_inv_step (k : nat) (tree : AncestorTree)
    (frontier : list (positive * string)) :
  expansion_inv k tree frontier →
  let next := frontier ≫= (λ '(n, ref), expand_one getParents n ref) in
  expansion_inv (S k) (record next tree) (individuals next).
Proof.
  intros [Hsize Hfront Hparent HP Hcouple] next.
  assert (Hnext : ∀ n' s, (n', s) ∈ next →
            ∃ n r, (n, r) ∈ frontier ∧ tree !! n = Some (Individual r)
                   ∧ Pos.size_nat n' = S k ∧ parent n' = n
                   ∧ n' ≠ 1%positive
                   ∧ ((n' = (n~0)%positive ∧ s = slot_of (getParents r).1)
                      ∨ (n' = (n~1)%positive
                         ∧ s = slot_of (getParents r).2))).
  { intros n' s Hin. apply elem_of_next in Hin as (n & r & Hnr & Hin).
    exists n, r. destruct (Hfront n r Hnr) as [Hk Hlook].
    apply elem_of_expand_one in Hin.
    repeat split; try done.
    all: destruct Hin as [[-> Hs]|[-> Hs]]; simpl; try done.
    all: lia. }
  assert (Hfun : ∀ m s1 s2, (m, s1) ∈ next → (m, s2) ∈ next → s1 = s2).
  { intros m s1 s2 H1 H2.
    destruct (Hnext m s1 H1) as (n1 & r1 & _ & Hl1 & _ & Hp1 & _ & Hc1).
    destruct (Hnext m s2 H2) as (n2 & r2 & _ & Hl2 & _ & Hp2 & _ & Hc2).
    assert (n1 = n2) as -> by congruence.
    assert (r1 = r2) as -> by congruence.
    destruct Hc1 as [[-> ->]|[-> ->]], Hc2 as [[? ->]|[? ->]];
      done. }
  assert (Hold : ∀ n s, tree !! n = Some s → record next tree !! n = Some s).
  { intros n s Hn. rewrite record_lookup_fresh; [done|].
    intros s' Hin. destruct (Hnext n s' Hin) as (_ & _ & _ & _ & Hk & _).
    specialize (Hsize n s Hn). lia. }
  assert (Hpres : ∀ n, present tree n → present (record next tree) n).
  { intros n. unfold present. destruct (tree !! n) as [s|] eqn:Hn; [|done].
    by rewrite (Hold n s Hn). }
  split.
  - intros n s Hn. apply record_lookup in Hn as [Hin|Hn].
    + destruct (Hnext n s Hin) as (_ & _ & _ & _ & Hk & _). lia.
    + specialize (Hsize n s Hn). lia.
  - intros n r Hin. apply elem_of_individuals in Hin.
    destruct (Hnext n _ Hin) as (_ & _ & _ & _ & Hk & _).
    split; [done|]. by apply record_lookup_functional.
  - intros n s Hn Hn1. apply record_lookup in Hn as [Hin|Hn].
    + destruct (Hnext n s Hin) as (m & r & _ & Hm & _ & Hp & _).
      rewrite Hp. apply Hpres. unfold present. by rewrite Hm.
    + apply Hpres. by eapply Hparent.
  - intros n r Hn. apply record_lookup in Hn as [Hin|Hn]; [|by apply HP].
    destruct (Hnext n _ Hin) as (m & r' & _ & Hm & _ & _ & _ & Hc).
    specialize (HP m r' Hm).
    destruct Hc as [[-> Hs]|[-> Hs]].
    + apply (P_father m r'); [done|].
      destruct (getParents r').1; simpl in Hs; congruence.
    + apply (P_mother m r'); [done|].
      destruct (getParents r').2; simpl in Hs; congruence.
  - intros n Hn. apply record_lookup in Hn as [Hin|Hn]; [|by apply Hcouple].
    destruct (Hnext n _ Hin) as (m & r' & _ & _ & _ & _ & _ & Hc).
    destruct Hc as [[_ Hs]|[_ Hs]];
      [destruct (getParents r').1|destruct (getParents r').2]; done.
Qed.

Lemma expand_inv (generations : nat) :
  ∀ k tree frontier,
    expansion_inv k tree frontier →
    ∃ k' frontier',
      expansion_inv k' (expand getParents generations frontier tree) frontier'.
Proof.
  induction generations as [|g IH]; intros k tree frontier Hinv; simpl.
  - eauto.
  - eapply IH. by apply expansion_inv_step.
Qed.

Lemma build_inv (rootIndividual : string) :
  P 1%positive rootIndividual →
  expansion_inv 1 {[ 1%positive := Individual rootIndividual ]}
    [(1%positive, rootIndividual)].
Proof.
  intros HP. split.
  - intros n s Hn. apply lookup_singleton_Some in Hn as [<- _]. done.
  - intros n r Hin. apply list_elem_of_singleton in Hin as [= -> ->].
    split; [done|]. apply lookup_singleton_eq.
  - intros n s Hn Hn1. by apply lookup_singleton_Some in Hn as [<- _].
  - intros n r Hn. by apply lookup_singleton_Some in Hn as [<- [= <-]].
  - intros n Hn. by apply lookup_singleton_Some in Hn as [<- _].
Qed.

Lemma build_joint_inv (personA personB : string) :
  P 2%positive personA → P 3%positive personB →
  expansion_inv 2
    (<[ 3%positive := Individual personB ]>
       (<[ 2%positive := Individual personA ]>
          {[ 1%positive := Couple ]}))
    [(2%positive, personA); (3%positive, personB)].
Proof.
  intros HA HB.
  assert (Hcases : ∀ n s,
    (<[ 3%positive := Individual personB ]>
       (<[ 2%positive := Individual personA ]>
          ({[ 1%positive := Couple ]} : AncestorTree))) !! n = Some s →
    (n = 3%positive ∧ s = Individual personB)
    ∨ (n = 2%positive ∧ s = Individual personA)
    ∨ (n = 1%positive ∧ s = Couple)).
  { intros n s. rewrite !lookup_insert.
    destruct (decide (3%positive = n)) as [<-|?]; [intros [= <-]; auto|].
    destruct (decide (2%positive = n)) as [<-|?]; [intros [= <-]; auto|].
    intros Hn. apply lookup_singleton_Some in Hn as [<- <-]. auto. }
  split.
  - intros n s Hn.
    destruct (Hcases n s Hn) as [[-> _]|[[-> _]|[-> _]]]; simpl; lia.
  - intros n r Hin.
    apply elem_of_cons in Hin as [[= -> ->]|Hin]; [by split|].
    apply list_elem_of_singleton in Hin as [= -> ->]. by split.
  - intros n s Hn Hn1. unfold present.
    destruct (Hcases n s Hn) as [[-> _]|[[-> _]|[-> _]]]; done.
  - intros n r Hn.
    destruct (Hcases n _ Hn) as [[-> [= ->]]|[[-> [= ->]]|[_ ?]]]; done.
  - intros n Hn.
    destruct (Hcases n _ Hn) as [[_ ?]|[[_ ?]|[-> _]]]; done.
Qed.

Lemma build_parent_present (rootIndividual : string) (maxGenerations : nat) :
  P 1%positive rootIndividual →
  let tree := build getParents rootIndividual maxGenerations in
  (∀ n s, tree !! n = Some s → n ≠ 1%positive → present tree (parent n))
  ∧ (∀ n r, tree !! n = Some (Individual r) → P n r)
  ∧ (∀ n, tree !! n = Some Couple → n = 1%positive).
Proof.
  intros HP tree.
  destruct (expand_inv maxGenerations _ _ _ (build_inv rootIndividual HP))
    as (k & frontier & [_ _ Hparent HP' Hcouple]).
  by repeat split.
Qed.

Lemma build_joint_parent_present (personA personB : string)
    (maxGenerations : nat) :
  P 2%positive personA → P 3%positive personB →
  let tree := build_joint getParents personA personB maxGenerations in
  (∀ n s, tree !! n = Some s → n ≠ 1%positive → present tree (parent n))
  ∧ (∀ n r, tree !! n = Some (Individual r) → P n r)
  ∧ (∀ n, tree !! n = Some Couple → n = 1%positive).
Proof.
  intros HA HB tree.
  destruct (expand_inv maxGenerations _ _ _
              (build_joint_inv personA personB HA HB))
    as (k & frontier & [_ _ Hparent HP' Hcouple]).
  by repeat split.
Qed.

End BuilderFacts.

Lemma present_visited (tree : AncestorTree) (n : positive) :
  present tree n → visited tree n.
Proof using. unfold present, visited. by destruct (tree !! n). Qed.

Lemma parent_is_half (n : positive) :
  n ≠ 1%positive → Z.pos (parent n) = (Z.pos n / 2)%Z.
Proof using.
  intros Hn. destruct n as [p|p|]; [| |done]; simpl.
  - apply (Z.div_unique _ _ _ 1); lia.
  - apply (Z.div_unique _ _ _ 0); lia.
Qed.

(** When every visited position above the root has a present parent, the
    positions between a present position and the root are present. *)
Lemma present_on_line (tree : AncestorTree) :
  (∀ n s, tree !! n = Some s → n ≠ 1%positive → present tree (parent n)) →
  ∀ n z, present tree n → on_line z n = true → present tree z.
Proof using.
  intros Hparent n. induction n as [p IH|p IH|]; intros z Hn Hz;
    apply on_line_unfold in Hz as [->|[Hn1 Hz]]; try done.
  - apply IH; [|done]. apply present_visited in Hn as [s Hs].
    by apply (Hparent _ s Hs).
  - apply IH; [|done]. apply present_visited in Hn as [s Hs].
    by apply (Hparent _ s Hs).
Qed.

(** C8.  In a tree the builder made, for one person or for a couple, a
    present position above the root has its parent position, half of it
    rounded down, present; and the positions of the parents of a position
    that is not present were never visited. *)
Theorem C8_parent_presence_and_downward_absence :
  ∀ (getParents : string → option string * option string),
    (∀ n, n ≠ 1%positive → Z.pos (parent n) = (Z.pos n / 2)%Z)
    ∧ (∀ (rootIndividual : string) (maxGenerations : nat) (n : positive),
         let tree := build getParents rootIndividual maxGenerations in
         (n ≠ 1%positive → present tree n → present tree (parent n))
         ∧ (¬ present tree n →
            ¬ visited tree (n~0) ∧ ¬ visited tree (n~1)))
    ∧ (∀ (personA personB : string) (maxGenerations : nat) (n : positive),
         let tree := build_joint getParents personA personB maxGenerations in
         (n ≠ 1%positive → present tree n → present tree (parent n))
         ∧ (¬ present tree n →
            ¬ visited tree (n~0) ∧ ¬ visited tree (n~1))).
Proof using.
  intros getParents.
  assert (Hall : ∀ tree : AncestorTree,
    (∀ n s, tree !! n = Some s → n ≠ 1%positive → present tree (parent n)) →
    ∀ n, (n ≠ 1%positive → present tree n → present tree (parent n))
         ∧ (¬ present tree n →
            ¬ visited tree (n~0) ∧ ¬ visited tree (n~1))).
  { intros tree Hparent n. split.
    - intros Hn1 Hn. apply present_visited in Hn as [s Hs].
      by apply (Hparent n s).
    - intros Hn. split; intros [s Hs]; apply Hn.
      + by apply (Hparent _ s Hs).
      + by apply (Hparent _ s Hs). }
  split; [apply parent_is_half|]. split.
  - intros rootIndividual maxGenerations n tree. apply Hall.
    by apply (build_parent_present getParents (λ _ _, True)).
  - intros personA personB maxGenerations n tree. apply Hall.
    by apply (build_joint_parent_present getParents (λ _ _, True)).
Qed.

(** ** The pedigree engine: duplicates and collapse points *)

Lemma elem_of_occupied (tree : AncestorTree) (n : positive) (r : string) :
  (n, r) ∈ occupied tree → tree !! n = Some (Individual r).
Proof using.
  unfold occupied. rewrite elem_of_individuals, list_elem_of_fmap.
  intros (m & [= -> Hr] & _).
  destruct (tree !! m) as [s|]; simpl in Hr; [by rewrite Hr|done].
Qed.

Lemma add_position_sound (index : list (string * list positive))
    (n : positive) (r r' : string) (ps : list positive) (m : positive) :
  (r', ps) ∈ add_position index n r → m ∈ ps →
  (m = n ∧ r' = r) ∨ ∃ ps', (r', ps') ∈ index ∧ m ∈ ps'.
Proof using.
  induction index as [|[r0 ps0] index IH]; simpl; intros Hin Hm.
  - apply list_elem_of_singleton in Hin as [= -> ->].
    apply list_elem_of_singleton in Hm as ->. by left.
  - destruct (decide (r = r0)) as [->|Hne].
    + apply elem_of_cons in Hin as [[= -> ->]|Hin].
      * apply elem_of_app in Hm as [Hm|Hm].
        -- right. exists ps0. split; [by left|done].
        -- apply list_elem_of_singleton in Hm as ->. by left.
      * right. exists ps. split; [by right|done].
    + apply elem_of_cons in Hin as [[= -> ->]|Hin].
      * right. exists ps0. split; [by left|done].
      * destruct (IH Hin Hm) as [?|(ps' & ? & ?)]; [by left|].
        right. exists ps'. split; [by right|done].
Qed.

Lemma index_sound (Q : positive → string → Prop)
    (l : list (positive * string)) :
  ∀ index,
    (∀ r ps m, (r, ps) ∈ index → m ∈ ps → Q m r) →
    (∀ n r, (n, r) ∈ l → Q n r) →
    ∀ r ps m,
      (r, ps) ∈ fold_left (λ index '(n, ref), add_position index n ref)
                  l index →
      m ∈ ps → Q m r.
Proof using.
  induction l as [|[n r0] l IH]; simpl; intros index Hindex Hl r ps m.
  - apply Hindex.
  - apply IH.
    + intros r' ps' m' Hin Hm.
      destruct (add_position_sound _ _ _ _ _ _ Hin Hm)
        as [[-> ->]|(ps'' & ? & ?)].
      * apply Hl. by left.
      * by eapply Hindex.
    + intros n' r' Hin. apply Hl. by right.
Qed.

Lemma elem_of_pairs (group : list positive) (a b : positive) :
  (a, b) ∈ pairs group → a ∈ group ∧ b ∈ group.
Proof using.
  induction group as [|x group IH]; simpl; intros Hin.
  - by apply elem_of_nil in Hin.
  - apply elem_of_app in Hin as [Hin|Hin].
    + apply list_elem_of_fmap in Hin as (y & [= -> ->] & Hy).
      split; [by left|by right].
    + destruct (IH Hin). split; by right.
Qed.

Lemma duplicate_pairs_sound (tree : AncestorTree) (a b : positive) :
  (a, b) ∈ duplicate_pairs tree →
  ∃ r, tree !! a = Some (Individual r) ∧ tree !! b = Some (Individual r).
Proof using.
  unfold duplicate_pairs, findDuplicates.
  rewrite list_elem_of_bind. intros (ps & Hab & Hps).
  apply list_elem_of_filter in Hps as [_ Hps].
  apply list_elem_of_fmap in Hps as ([r ps'] & -> & Hin). simpl in Hab.
  apply elem_of_pairs in Hab as [Ha Hb].
  exists r.
  assert (∀ m, m ∈ ps' → tree !! m = Some (Individual r)) as Hall.
  { intros m Hm.
    apply (index_sound (λ m r, tree !! m = Some (Individual r))
             (occupied tree) [] ) with (ps := ps'); try done.
    - intros ? ? ? Hnil. by apply elem_of_nil in Hnil.
    - apply elem_of_occupied. }
  split; by apply Hall.
Qed.

Lemma add_pair_lookup (descnum : option positive)
    (m : gmap positive comm_anc) (ab : positive * positive) (d : positive) :
  is_Some (add_pair descnum m ab !! d) →
  is_Some (m !! d)
  ∨ (collapse_point ab.1 ab.2 = Some d
     ∧ (descnum = None ∨ descnum = Some d)).
Proof using.
  unfold add_pair.
  destruct (collapse_point ab.1 ab.2) as [d'|]; [|by left].
  destruct (decide (descnum = None ∨ descnum = Some d')) as [Hd|]; [|by left].
  rewrite lookup_insert. destruct (decide (d' = d)) as [->|]; [|by left].
  intros _. by right.
Qed.

Lemma determine_lookup (descnum : option positive)
    (l : list (positive * positive)) :
  ∀ (m : gmap positive comm_anc) (d : positive),
    is_Some (fold_left (add_pair descnum) l m !! d) →
    is_Some (m !! d)
    ∨ ∃ ab, ab ∈ l ∧ collapse_point ab.1 ab.2 = Some d
            ∧ (descnum = None ∨ descnum = Some d).
Proof using.
  induction l as [|ab l IH]; simpl; intros m d Hd; [by left|].
  destruct (IH _ _ Hd) as [Hm|(ab' & ? & ?)].
  - destruct (add_pair_lookup _ _ _ _ Hm) as [?|?]; [by left|].
    right. exists ab. split; [by left|done].
  - right. exists ab'. split; [by right|done].
Qed.

(** A key of the collapse dictionary is the collapse point of two present
    positions that hold the same individual. *)
Lemma determine_pedigree_collapse_key (tree : AncestorTree)
    (descnum : option positive) (d : positive) :
  is_Some (determine_pedigree_collapse tree descnum !! d) →
  ∃ a b r,
    tree !! a = Some (Individual r) ∧ tree !! b = Some (Individual r)
    ∧ collapse_point a b = Some d
    ∧ (descnum = None ∨ descnum = Some d).
Proof using.
  intros Hd. apply determine_lookup in Hd as [Hd|([a b] & Hin & Hcp & Ho)].
  - rewrite lookup_empty in Hd. by destruct Hd.
  - apply duplicate_pairs_sound in Hin as (r & Ha & Hb).
    by exists a, b, r.
Qed.

(** The couple of a collapse point of a built tree is present. *)
Lemma collapse_couple_present (tree : AncestorTree) (d : positive) :
  (∀ n s, tree !! n = Some s → n ≠ 1%positive → present tree (parent n)) →
  is_Some (determine_pedigree_collapse tree None !! d) →
  present tree (d~0) ∧ present tree (d~1).
Proof using.
  intros Hparent Hd.
  apply determine_pedigree_collapse_key in Hd
    as (a & b & r & Ha & Hb & Hcp & _).
  assert (present tree a) as Hpa by (unfold present; by rewrite Ha).
  assert (present tree b) as Hpb by (unfold present; by rewrite Hb).
  destruct (collapse_point_couple _ _ _ Hcp) as [[H0 H1]|[H1 H0]]; split.
  - by apply (present_on_line tree Hparent a).
  - by apply (present_on_line tree Hparent b).
  - by apply (present_on_line tree Hparent b).
  - by apply (present_on_line tree Hparent a).
Qed.

(** In the joint tree of two individuals who share no ancestor, no two
    positions that hold the same individual diverge at the root. *)
Lemma no_shared_ancestor_no_collapse_at_root
    (getParents : string → option string * option string)
    (personA personB : string) (maxGenerations : nat) :
  no_shared_ancestor getParents personA personB →
  determine_pedigree_collapse
    (build_joint getParents personA personB maxGenerations)
    (Some 1%positive) = ∅.
Proof using.
  intros Hno. set (tree := build_joint _ _ _ _).
  pose (P := λ (n : positive) (r : string),
          n ≠ 1%positive
          ∧ (on_line 2 n = true → line_of getParents personA r)
          ∧ (on_line 3 n = true → line_of getParents personB r)).
  assert (HP : ∀ n r, tree !! n = Some (Individual r) → P n r).
  { apply (build_joint_parent_present getParents P).
    - intros n r father (Hn & HA & HB) Hf. split; [done|].
      split; intros Hl; apply on_line_unfold in Hl as [[=]|[_ Hl]];
        try done; eapply line_father; eauto.
    - intros n r mother (Hn & HA & HB) Hm. split; [done|].
      split; intros Hl; apply on_line_unfold in Hl as [[=]|[_ Hl]];
        try done; eapply line_mother; eauto.
    - split; [done|]. split; [intros _; constructor|done].
    - split; [done|]. split; [done|intros _; constructor]. }
  apply map_empty. intros d. apply eq_None_not_Some. intros Hd.
  apply determine_pedigree_collapse_key in Hd
    as (a & b & r & Ha & Hb & Hcp & [?|[= <-]]); [done|].
  destruct (HP a r Ha) as (_ & HaA & HaB).
  destruct (HP b r Hb) as (_ & HbA & HbB).
  destruct (collapse_point_couple _ _ _ Hcp) as [[H2 H3]|[H3 H2]];
    apply (Hno r); auto.
Qed.

End EngineFacts.

(** C7.  In the tree built for one person, every key [descnum] of the
    collapse dictionary has both positions of its couple, [descnum * 2] and
    [descnum * 2 + 1], present: [get_ancestor_by_number] returns an
    ancestor for each, and the ancestor holds the handle of an
    individual. *)
Theorem C7_collapse_couple_lookup_succeeds :
  ∀ (getParents : string → option string * option string)
    (order_ancestor_list :
       Engine.comm_anc → pydict (list positive) relationships)
    (rootIndividual : string) (maxGenerations : nat) (descnum : positive),
    let tree := Engine.build getParents rootIndividual maxGenerations in
    let pedigree := Engine.pedigree_of order_ancestor_list tree in
    is_Some (determine_pedigree_collapse pedigree None !! descnum) →
    ∃ father mother : string,
      get_ancestor_by_number pedigree (descnum * 2)
      = Some {| get_person_handle := Some father |}
      ∧ get_ancestor_by_number pedigree (descnum * 2 + 1)
        = Some {| get_person_handle := Some mother |}.
Proof using.
  intros getParents oal rootIndividual maxGenerations descnum tree pedigree
    Hkey.
  destruct (build_parent_present getParents (λ _ _, True)
              (λ _ _ _ _ _, I) (λ _ _ _ _ _, I)
              rootIndividual maxGenerations I) as (Hparent & _ & Hcouple).
  fold tree in Hparent, Hcouple.
  destruct (collapse_couple_present tree descnum Hparent Hkey) as [H0 H1].
  replace (descnum * 2)%positive with (descnum~0)%positive by lia.
  replace (descnum~0 + 1)%positive with (descnum~1)%positive by lia.
  unfold pedigree, Engine.pedigree_of. cbn [get_ancestor_by_number].
  unfold Engine.get_ancestor_by_number, Engine.present in *.
  destruct (tree !! (descnum~0)%positive) as [[| |father]|] eqn:E0;
    try done; [by apply Hcouple in E0|].
  destruct (tree !! (descnum~1)%positive) as [[| |mother]|] eqn:E1;
    try done; [by apply Hcouple in E1|].
  by exists father, mother.
Qed.

(** ** get_consanguinity without ancestors in common *)

Lemma spouse_body_no_common (self : ConsFormatter) (spouse_num : nat)
    (spouse_handle : string) (spouse_pedigree : Pedigree CA)
    (outstr : contents) :
  determine_pedigree_collapse spouse_pedigree (Some 1%positive) = ∅ →
  spouse_body self spouse_num spouse_handle spouse_pedigree outstr
  = (line ← partner_line self spouse_handle;
     mret (outstr ++ [line; no_common_ancs])%list).
Proof.
  intros Hempty. unfold spouse_body, partner_line.
  destruct (get_person_from_handle (db self) spouse_handle) as [e|spouse];
    [done|].
  rewrite !bind_inr.
  destruct (format_person _ _ _ _ _ _ _) as [e|s]; [done|].
  rewrite !bind_inr. unfold SimpleStringBuffer.add, no_common_ancs.
  rewrite Hempty. rewrite decide_True by done.
  rewrite <- app_assoc. by destruct (negb _).
Qed.

Lemma spouses_loop_no_common (self : ConsFormatter)
    (spouses : list (string * Pedigree CA)) :
  Forall (λ sp, determine_pedigree_collapse sp.2 (Some 1%positive) = ∅)
    spouses →
  ∀ (spouse_num : nat) (outstr : contents),
    spouses_loop self spouses spouse_num outstr
    = (lines ← mapM (λ sp, partner_line self sp.1) spouses;
       mret (outstr
             ++ concat ((λ line, [line; no_common_ancs]) <$> lines))%list).
Proof.
  induction 1 as [|[h sp] spouses Hsp _ IH]; intros spouse_num outstr.
  - simpl. by rewrite app_nil_r.
  - cbn [spouses_loop mapM]. rewrite spouse_body_no_common by done.
    cbn [fst]. destruct (partner_line self h) as [e|line]; [done|].
    rewrite !bind_inr, bind_ok, IH.
    destruct (mapM _ spouses) as [e|lines]; [done|].
    rewrite !bind_inr, !bind_ok. cbn [fmap list_fmap concat].
    by rewrite <- app_assoc.
Qed.

Lemma get_consanguinity_no_common (self : ConsFormatter) :
  spouse_pedigrees self ≠ [] →
  Forall (λ sp, determine_pedigree_collapse sp.2 (Some 1%positive) = ∅)
    (spouse_pedigrees self) →
  get_consanguinity self
  = (lines ← mapM (λ sp, partner_line self sp.1) (spouse_pedigrees self);
     mret (join (consanguinity_title
                 :: concat ((λ line, [line; no_common_ancs]) <$> lines)))).
Proof.
  intros Hne Hall. unfold get_consanguinity.
  destruct (spouse_pedigrees self) as [|sp spouses] eqn:E; [done|].
  rewrite spouses_loop_no_common by done.
  destruct (mapM _ _) as [e|lines]; [done|]. reflexivity.
Qed.

(** C1.  The couple query looks for collapse at position 1 of the joint
    tree only.  When the pedigree of every spouse answers for the joint
    tree of two individuals who share no ancestor, [get_consanguinity]
    prints, after the title, the line of each spouse followed by
    [no_common_ancs], and nothing else, whether or not the joint tree has
    pedigree collapse elsewhere; it raises only what printing a spouse
    raises. *)
Theorem C1_no_shared_ancestor_no_common_ancestors :
  ∀ (getParents : string → option string * option string)
    (self : ConsFormatter),
    spouse_pedigrees self ≠ [] →
    Forall (λ sp, ∃ personA personB maxGenerations,
              models_tree sp.2
                (Engine.build_joint getParents personA personB
                   maxGenerations)
              ∧ no_shared_ancestor getParents personA personB)
      (spouse_pedigrees self) →
    get_consanguinity self
    = (lines ← mapM (λ sp, partner_line self sp.1) (spouse_pedigrees self);
       mret (join (consanguinity_title
                   :: concat ((λ line, [line; no_common_ancs]) <$> lines)))).
Proof.
  intros getParents self Hne Hall.
  apply get_consanguinity_no_common; [done|].
  eapply Forall_impl; [exact Hall|]. simpl.
  intros [h sp] (personA & personB & g & (_ & Hdom & _) & Hno). simpl in *.
  apply dom_empty_inv_L. rewrite Hdom.
  rewrite (no_shared_ancestor_no_collapse_at_root _ _ _ _ Hno).
  apply dom_empty_L.
Qed.

(** * Further properties of the formatter *)

(** ** Definitions used in their statements *)

(** The characters [html.escape] replaces, the ampersand apart: the
    angle brackets and the two quotes. *)
Definition markup_char (c : ascii) : bool :=
  bool_decide (nat_of_ascii c ∈ [60; 62; 34; 39]).

(** A string holds one of these characters. *)
Fixpoint has_markup (s : string) : bool :=
  match s with
  | EmptyString => false
  | String c s' => markup_char c || has_markup s'
  end.

(** An event gives a date to print: [get_date] of it is not empty. *)
Definition has_date (event : option Event) : bool :=
  match event with
  | Some e => nonempty (get_date e)
  | None => false
  end.

(** The death event tells that the person never married: it is a death,
    not a fallback, and one of its attributes is called [UNMARRIED] in
    whatever case. *)
Definition unmarried (event : option Event) : bool :=
  match event with
  | Some e =>
      bool_decide (get_type e = DEATH)
      && bool_decide (Exists (λ attr, upper attr = "UNMARRIED")
                        (get_attribute_list e))
  | None => false
  end.

(** The line of one common ancestor. *)
Definition ancestor_line (self : ConsFormatter) (pedigree : Pedigree CA)
    (anc_num : positive) : result string :=
  ancestor ← of_option AttributeError
               (get_ancestor_by_number pedigree anc_num);
  format_person (db self) (get_person_handle ancestor)
    (TAB ++ TAB) NL true true false.

(** The heading of the common ancestors of a group. *)
Definition common_ancestors_header (n : nat) : string :=
  TAB ++ "<b>"
  ++ (if decide (n = 1) then MSG_COMMON_ANC else MSG_COMMON_ANCS)
  ++ "</b>" ++ NL.

(** What [format_person] prints between [prestr] and [poststr]. *)
Definition person_text (person_handle : handle) (name : string)
    (link : bool) (datestr : string) (split : bool) : string :=
  (if link
   then "<a href=" ++ DQ ++ "P " ++ str_of_handle person_handle ++ DQ
        ++ ">" ++ name ++ "</a>"
   else name)
  ++ (if nonempty datestr then (if split then NL else " ") ++ datestr
      else EmptyString).

(** ** Strings *)

Lemma nonempty_append (s t : string) :
  nonempty (s ++ t) = nonempty s || nonempty t.
Proof. by destruct s. Qed.

Lemma has_markup_append (s t : string) :
  has_markup (s ++ t) = has_markup s || has_markup t.
Proof.
  induction s as [|c s IH]; [done|].
  rewrite append_cons. simpl. by rewrite IH, orb_assoc.
Qed.

Lemma escape_cons (c : ascii) (s : string) :
  escape (String c s) = escape (String c EmptyString) ++ escape s.
Proof. simpl. by rewrite append_nil_r. Qed.

Lemma escape_char (c : ascii) :
  has_markup (escape (String c EmptyString)) = false
  ∧ nonempty (escape (String c EmptyString)) = true
  ∧ (markup_char c = false → nat_of_ascii c ≠ 38 →
     escape (String c EmptyString) = String c EmptyString).
Proof.
  destruct c as [[] [] [] [] [] [] [] []]; vm_compute;
    (split; [reflexivity|split; [reflexivity|]]);
    intros H1 H2; first [reflexivity|discriminate H1|by destruct H2].
Qed.

Lemma escape_append (s t : string) : escape (s ++ t) = escape s ++ escape t.
Proof.
  induction s as [|c s IH]; [done|].
  rewrite append_cons, escape_cons, (escape_cons c s), IH.
  by rewrite append_assoc.
Qed.

Lemma has_markup_escape (s : string) : has_markup (escape s) = false.
Proof.
  induction s as [|c s IH]; [done|].
  rewrite escape_cons, has_markup_append, IH.
  by rewrite (proj1 (escape_char c)).
Qed.

Lemma nonempty_escape (s : string) : nonempty (escape s) = nonempty s.
Proof.
  destruct s as [|c s]; [done|].
  rewrite escape_cons, nonempty_append.
  by rewrite (proj1 (proj2 (escape_char c))).
Qed.

(** ** fmt_date and info_string *)

Lemma nonempty_fmt_date (date : option Event) (preferred : EventType) :
  nonempty (fmt_date date preferred) = has_date date.
Proof.
  destruct date as [e|]; [|done]. unfold fmt_date, has_date.
  destruct (nonempty (get_date e)) eqn:Hd; [|done]. cbn [negb].
  assert (He : nonempty (escape (get_date e)) = true)
    by (by rewrite nonempty_escape).
  destruct (decide (preferred = BIRTH)), (decide (get_type e ≠ preferred));
    rewrite !nonempty_append, ?He; cbn; by rewrite ?orb_true_r.
Qed.

(** X1.  [fmt_date] returns the empty string exactly when there is no event
    or the event has no date to show.  Otherwise the result is the date
    escaped for markup, which holds no angle bracket and no quote, after
    the symbol of the preferred event when the event is of that type, and
    in italics after the symbol of the fallback when it is not. *)
Theorem X1_fmt_date_empty_or_escaped :
  ∀ (date : option Event) (preferred : EventType),
    nonempty (fmt_date date preferred) = has_date date
    ∧ (∀ e, date = Some e → nonempty (get_date e) = true →
        has_markup (escape (get_date e)) = false
        ∧ fmt_date date preferred
          = if decide (get_type e = preferred)
            then (if decide (preferred = BIRTH) then birth_symbol
                  else death_symbol) ++ escape (get_date e)
            else (if decide (preferred = BIRTH) then baptism_symbol
                  else burial_symbol)
                 ++ "<i>" ++ escape (get_date e) ++ "</i>").
Proof.
  intros date preferred. split; [apply nonempty_fmt_date|].
  intros e -> Hd. split; [apply has_markup_escape|].
  unfold fmt_date. rewrite Hd. cbn [negb].
  destruct (decide (preferred = BIRTH)), (decide (get_type e = preferred));
    first [by rewrite decide_False by (by intros ?)
          |by rewrite decide_True by done].
Qed.

(** X2.  [info_string] is empty exactly when neither a birth (or its
    fallback) nor a death (or its fallback) has a date to show, in both
    layouts; the one-line layout of anything else is in parentheses. *)
Theorem X2_info_string_empty_iff_no_date :
  ∀ (db : Database) (person : Person) (split : bool),
    nonempty (info_string db person split)
    = has_date (get_birth_or_fallback db person)
      || has_date (get_death_or_fallback db person)
    ∧ (nonempty (info_string db person false) = true →
       ∃ inner, info_string db person false = "(" ++ inner ++ ")").
Proof.
  intros db0 p split.
  rewrite <- (nonempty_fmt_date _ BIRTH), <- (nonempty_fmt_date _ DEATH).
  unfold info_string.
  destruct (fmt_date (get_birth_or_fallback db0 p) BIRTH) as [|a bdate];
    destruct (fmt_date (get_death_or_fallback db0 p) DEATH) as [|b ddate];
    cbn [nonempty andb orb].
  - split; [by destruct split|done].
  - split; [by destruct split|]. intros _. by eexists.
  - split; [by destruct split|]. intros _. by eexists.
  - split; [by destruct split|]. intros _.
    exists (String a bdate ++ ", " ++ String b ddate).
    by rewrite !append_assoc.
Qed.

(** ** format_person *)

Lemma format_person_spec (db : Database) (person_handle : handle)
    (prestr poststr : string) (link dates split : bool) :
  format_person db person_handle prestr poststr link dates split
  = if handle_truthy person_handle then
      person ← get_person_from_handle db (str_of_handle person_handle);
      mret (prestr
            ++ person_text person_handle (display_name person) link
                 (if dates then info_string db person split
                  else EmptyString) split
            ++ poststr)
    else
      mret (prestr
            ++ person_text person_handle MSG_UNKNOWN_NAME link
                 EmptyString split
            ++ poststr).
Proof.
  unfold format_person, person_text.
  destruct (handle_truthy person_handle).
  - destruct (get_person_from_handle db _) as [e|p]; [done|].
    rewrite !bind_inr, !bind_ok. destruct dates.
    + cbn [of_option]. unfold ok. rewrite bind_inr.
      destruct (nonempty (info_string db p split)); rewrite bind_ok;
        by rewrite ?append_nil_r.
    + rewrite bind_ok. cbn [nonempty]. by rewrite append_nil_r.
  - rewrite !bind_ok. cbn [nonempty]. by rewrite append_nil_r.
Qed.

(** X3.  [format_person] raises nothing of its own: it fails only for a
    reference that is given and not empty, and then with the error of the
    database lookup; the local [person] is never read unassigned.  When
    the lookup returns a person the result is the name, as a link when
    [link] is set, followed by the dates when [dates] is set and there are
    any, between [prestr] and [poststr]. *)
Theorem X3_format_person_fails_only_with_the_lookup :
  ∀ (db : Database) (person_handle : handle) (prestr poststr : string)
    (link dates split : bool),
    (∀ e, format_person db person_handle prestr poststr link dates split
          = raise e →
          handle_truthy person_handle = true
          ∧ get_person_from_handle db (str_of_handle person_handle)
            = raise e)
    ∧ (∀ person,
         handle_truthy person_handle = true →
         get_person_from_handle db (str_of_handle person_handle)
         = ok person →
         format_person db person_handle prestr poststr link dates split
         = ok (prestr
               ++ person_text person_handle (display_name person) link
                    (if dates then info_string db person split
                     else EmptyString) split
               ++ poststr)).
Proof.
  intros db0 h prestr poststr link dates split.
  rewrite format_person_spec. split.
  - intros e. destruct (handle_truthy h); [|done].
    destruct (get_person_from_handle db0 _) as [e'|p]; [|done].
    intros [= ->]. by split.
  - intros p -> Hp. by rewrite Hp.
Qed.

(** ** no_spouses_string *)

Lemma unmarried_loop_spec (attr_list : list string) :
  unmarried_loop attr_list
  = if bool_decide (Exists (λ attr, upper attr = "UNMARRIED") attr_list)
    then MSG_NOT_MARRIED else MSG_NO_PARTNERS.
Proof.
  induction attr_list as [|attr rest IH]; cbn [unmarried_loop].
  - rewrite bool_decide_eq_false_2; [done|]. by intros H%Exists_nil.
  - destruct (decide (upper attr = "UNMARRIED")) as [Hu|Hu].
    + rewrite bool_decide_eq_true_2; [done|]. by left.
    + rewrite IH. destruct (bool_decide (Exists _ rest)) eqn:E.
      * apply bool_decide_eq_true in E.
        rewrite bool_decide_eq_true_2; [done|by right].
      * apply bool_decide_eq_false in E.
        rewrite bool_decide_eq_false_2; [done|].
        by intros [?|?]%Exists_cons.
Qed.

Lemma no_spouses_string_spec (self : ConsFormatter) (person : Person) :
  no_spouses_string self person
  = if unmarried (get_death_or_fallback (db self) person)
    then MSG_NOT_MARRIED else MSG_NO_PARTNERS.
Proof.
  unfold no_spouses_string, unmarried.
  destruct (get_death_or_fallback (db self) person) as [e|]; [|done].
  destruct (decide (get_type e ≠ DEATH)) as [Hne|Heq].
  - by rewrite (bool_decide_eq_false_2 _ Hne).
  - rewrite bool_decide_eq_true_2
      by (by destruct (decide (get_type e = DEATH))).
    apply unmarried_loop_spec.
Qed.

(** X4.  [no_spouses_string] answers [MSG_NOT_MARRIED] exactly when the
    person has a death event proper, not a burial or another fallback, with
    an attribute whose type reads [UNMARRIED] in upper case; in every other
    case, a person without any death event included, it answers
    [MSG_NO_PARTNERS]. *)
Theorem X4_no_spouses_string_not_married_iff :
  ∀ (self : ConsFormatter) (person : Person),
    no_spouses_string self person
    = if unmarried (get_death_or_fallback (db self) person)
      then MSG_NOT_MARRIED else MSG_NO_PARTNERS.
Proof. apply no_spouses_string_spec. Qed.

(** ** The two sections without anything to report *)

(** X5.  For a pedigree without collapse [get_pedigree_collapse] returns
    the title and the line [MSG_NO_PED_COLLAPSE]: it reads neither the
    collapse dictionary nor the database, and raises nothing. *)
Theorem X5_get_pedigree_collapse_without_collapse :
  ∀ (self : ConsFormatter),
    has_pedigree_collapse (pedigree self) = false →
    get_pedigree_collapse self
    = ok (collapse_title ++ "<i>" ++ MSG_NO_PED_COLLAPSE ++ "</i>"
          ++ NL ++ NL).
Proof.
  intros self Hno. unfold get_pedigree_collapse. rewrite Hno. reflexivity.
Qed.

(** X6.  For an active person without partners [get_consanguinity] returns
    the title and, in italics, [MSG_NOT_MARRIED] when the death event says
    so and [MSG_NO_PARTNERS] otherwise; it raises nothing. *)
Theorem X6_get_consanguinity_without_spouses :
  ∀ (self : ConsFormatter),
    spouse_pedigrees self = [] →
    get_consanguinity self
    = ok (consanguinity_title ++ NL ++ "<i>"
          ++ (if unmarried (get_death_or_fallback (db self) (person self))
              then MSG_NOT_MARRIED else MSG_NO_PARTNERS)
          ++ "</i>" ++ NL).
Proof.
  intros self Hno. unfold get_consanguinity. rewrite Hno.
  rewrite no_spouses_string_spec. reflexivity.
Qed.

(** ** format_common_ancestor_names *)

Lemma common_ancestor_names_body_spec (self : ConsFormatter)
    (pedigree : Pedigree CA) (n : positive) (outstr : contents) :
  common_ancestor_names_body self pedigree n outstr
  = (line ← ancestor_line self pedigree n; mret (outstr ++ [line])%list).
Proof.
  unfold common_ancestor_names_body, ancestor_line.
  destruct (get_ancestor_by_number pedigree n) as [anc|]; [|done].
  cbn [of_option]. unfold ok. rewrite !bind_inr.
  by destruct (format_person _ _ _ _ _ _ _).
Qed.

Lemma common_ancestor_names_loop_spec (self : ConsFormatter)
    (pedigree : Pedigree CA) (l : list positive) :
  ∀ outstr,
    common_ancestor_names_loop self pedigree l outstr
    = (lines ← mapM (ancestor_line self pedigree) l;
       mret (outstr ++ lines)%list).
Proof.
  induction l as [|n l IH]; intros outstr.
  - simpl. by rewrite app_nil_r.
  - cbn [common_ancestor_names_loop mapM].
    rewrite common_ancestor_names_body_spec.
    destruct (ancestor_line self pedigree n) as [e|line]; [done|].
    rewrite !bind_inr, bind_ok, IH.
    destruct (mapM _ l) as [e|lines]; [done|].
    rewrite !bind_inr, bind_ok. by rewrite <- app_assoc.
Qed.

(** X7.  [format_common_ancestor_names] prints a heading, in the singular
    exactly when there is one ancestor number, and then one line per
    ancestor number, in order.  It raises what the first line that fails
    raises: [AttributeError] for a number the pedigree has no ancestor
    for, else the error of the database.  An empty tuple gives the heading
    in the plural alone. *)
Theorem X7_format_common_ancestor_names_lines :
  ∀ (self : ConsFormatter) (pedigree : Pedigree CA)
    (common_ancestors : list positive),
    format_common_ancestor_names self pedigree common_ancestors
    = (lines ← mapM (ancestor_line self pedigree) common_ancestors;
       mret (join (common_ancestors_header (length common_ancestors)
                   :: lines)))
    ∧ (∀ n rest,
         common_ancestors = n :: rest →
         get_ancestor_by_number pedigree n = None →
         format_common_ancestor_names self pedigree common_ancestors
         = raise AttributeError)
    ∧ (common_ancestors = [] →
       format_common_ancestor_names self pedigree common_ancestors
       = ok (TAB ++ "<b>" ++ MSG_COMMON_ANCS ++ "</b>" ++ NL)).
Proof.
  intros self pedigree l.
  assert (Heq : format_common_ancestor_names self pedigree l
    = (lines ← mapM (ancestor_line self pedigree) l;
       mret (join (common_ancestors_header (length l) :: lines)))).
  { unfold format_common_ancestor_names, common_ancestors_header.
    destruct (decide (length l = 1)) as [Hone|Hone];
      rewrite common_ancestor_names_loop_spec;
      (destruct (mapM _ l) as [e|lines]; [done|]); reflexivity. }
  split; [exact Heq|]. split.
  - intros n rest -> Hn. rewrite Heq. cbn [mapM].
    unfold ancestor_line. by rewrite Hn.
  - intros ->. rewrite Heq. reflexivity.
Qed.

(** ** format_common_anc_rels *)

Lemma getitem_keys {K V} `{EqDecision K} (d : pydict K V) (k : K) :
  k ∈ keys d → ∃ v, getitem d k = ok v.
Proof.
  unfold keys. induction d as [|[k' v'] d IH]; simpl; intros Hin.
  - by apply elem_of_nil in Hin.
  - destruct (decide (k = k')) as [->|Hne]; [by eexists|].
    apply IH. apply elem_of_cons in Hin as [?|?]; [done|done].
Qed.

Lemma anc_rels_loop_returns (ped_index : nat) (rel : relationships)
    (half : bool) (rel_type : string) (generations : Z)
    (active_gender : Gender) (relnums : list (Z * Z)) :
  (∀ k, k ∈ relnums → k ∈ keys rel) →
  ∀ count tabs outstr,
    ∃ pieces,
      anc_rels_loop ped_index rel half rel_type generations active_gender
        relnums count tabs outstr
      = ok (outstr ++ pieces)%list.
Proof.
  induction relnums as [|k relnums IH]; intros Hin count tabs outstr.
  - exists []. simpl. by rewrite app_nil_r.
  - cbn [anc_rels_loop].
    destruct (decide (RELATIONSHIP_LIMIT < count + 1)); [by eexists|].
    unfold anc_rels_body.
    destruct (getitem_keys rel k) as [v Hv]; [apply Hin; by left|].
    rewrite Hv. unfold ok at 1. rewrite bind_inr, bind_ok.
    edestruct IH as [pieces Hp]; [intros k' Hk'; apply Hin; by right|].
    rewrite Hp. unfold SimpleStringBuffer.add. rewrite <- app_assoc.
    by eexists.
Qed.

(** X8.  [format_common_anc_rels] always returns, whatever the dictionary
    of relationships, empty or not: every key it looks up comes from the
    dictionary.  Its result starts with the heading, in the plural exactly
    when the dictionary has more than one relationship. *)
Theorem X8_format_common_anc_rels_returns :
  ∀ (self : ConsFormatter) (ped_index : nat) (rel : relationships)
    (half : bool) (generations : Z) (active_gender spouse_gender : Gender),
    ∃ rest,
      format_common_anc_rels self ped_index rel half generations
        active_gender spouse_gender
      = ok (relationships_header (length rel) ++ rest).
Proof.
  intros self ped_index rel half generations active_gender spouse_gender.
  unfold format_common_anc_rels, relationships_header.
  assert (Hlen : length (keys rel) = length rel)
    by (unfold keys; apply length_fmap).
  rewrite Hlen.
  destruct (decide (1 < length rel)) as [Hp|Hp];
    [rewrite (bool_decide_eq_true_2 _ Hp)
    |rewrite (bool_decide_eq_false_2 _ Hp)];
    (edestruct (anc_rels_loop_returns ped_index rel half
                  (if half then HALF_MARK else EmptyString) generations
                  active_gender (keys rel)) as [pieces Hpieces];
       [done|]; rewrite Hpieces; unfold ok at 1; rewrite bind_inr;
     exists (join pieces); unfold mret, result_ret, ok; f_equal;
     unfold SimpleStringBuffer.str, SimpleStringBuffer.init,
       SimpleStringBuffer.add;
     by rewrite !join_app, (join_cons _ []), append_nil_r).
Qed.

Lemma rellist_str_loop_spec (l : rellist) :
  ∀ acc,
    rellist_str_loop l acc
    = acc ++ join ((λ item, join_comma (pretty <$> concat item) ++ " ")
                     <$> l).
Proof.
  induction l as [|item l IH]; intros acc.
  - simpl. by rewrite append_nil_r.
  - cbn [rellist_str_loop]. rewrite IH, fmap_cons, join_cons.
    by rewrite !append_assoc.
Qed.

(** X9.  The target of the link of a relationship names the pedigree by
    its index and lists every path of the relationship, in order, the
    numbers of a path separated by commas and every path followed by one
    space: the limit on the relationships printed does not shorten the
    list of the paths of one relationship. *)
Theorem X9_link_target_lists_every_path :
  ∀ (ped_index : nat) (rel : relationships) (half : bool) (rel_type : string)
    (generations : Z) (active_gender : Gender) (relnum : Z * Z)
    (paths : rellist) (tabs : string) (outstr : contents),
    getitem rel relnum = ok paths →
    ∃ text,
      anc_rels_body ped_index rel half rel_type generations active_gender
        relnum tabs outstr
      = ok (outstr
            ++ [(tabs ++ "<a href=" ++ DQ
                 ++ ("N " ++ pretty ped_index ++ " "
                     ++ join ((λ item,
                                 join_comma (pretty <$> concat item) ++ " ")
                                <$> paths))
                 ++ DQ ++ ">" ++ text ++ "</a>" ++ NL)%string])%list.
Proof.
  intros ped_index rel half rel_type generations active_gender relnum paths
    tabs outstr Hget.
  unfold anc_rels_body. rewrite Hget. unfold ok at 1. rewrite bind_inr.
  eexists. rewrite rellist_str_loop_spec. reflexivity.
Qed.

(** ** get_consanguinity, spouse by spouse *)

Lemma spouse_body_appends (self : ConsFormatter) (spouse_num : nat)
    (spouse_handle : string) (spouse_pedigree : Pedigree CA)
    (outstr : contents) :
  spouse_body self spouse_num spouse_handle spouse_pedigree outstr
  = (pieces ← spouse_body self spouse_num spouse_handle spouse_pedigree [];
     mret (outstr ++ pieces)%list).
Proof.
  unfold spouse_body.
  destruct (get_person_from_handle (db self) spouse_handle) as [err|spouse];
    [done|].
  rewrite !bind_inr.
  destruct (format_person _ _ _ _ _ _ _) as [err|s]; [done|].
  rewrite !bind_inr. unfold SimpleStringBuffer.add.
  destruct (negb (has_pedigree_collapse spouse_pedigree)).
  { rewrite bind_ok. by rewrite <- app_assoc. }
  destruct (decide (determine_pedigree_collapse spouse_pedigree
                      (Some 1%positive) = ∅)).
  { rewrite bind_ok. by rewrite <- app_assoc. }
  destruct (determine_pedigree_collapse spouse_pedigree (Some 1%positive)
              !! 1%positive) as [ca|]; [|done].
  cbn [of_option]. unfold ok. rewrite !bind_inr.
  rewrite !spouse_groups_loop_for_each.
  rewrite !(for_each_limit_spec _ _ _
              (spouse_group_body_appends self _ _ _)).
  destruct (mapM _ _) as [err|blocks]; [done|].
  rewrite !bind_inr, !bind_ok. by rewrite <- !app_assoc.
Qed.

Lemma spouses_loop_spec (self : ConsFormatter)
    (spouses : list (string * Pedigree CA)) :
  ∀ (spouse_num : nat) (outstr : contents),
    spouses_loop self spouses spouse_num outstr
    = (blocks ← mapM (λ x : nat * (string * Pedigree CA),
                        spouse_body self x.1 x.2.1 x.2.2 [])
                  (zip (seq (S spouse_num) (length spouses)) spouses);
       mret (outstr ++ concat blocks)%list).
Proof.
  induction spouses as [|[h p] spouses IH]; intros spouse_num outstr.
  - simpl. by rewrite app_nil_r.
  - cbn [spouses_loop length seq zip zip_with mapM fst snd].
    replace (spouse_num + 1) with (S spouse_num) by lia.
    rewrite spouse_body_appends.
    destruct (spouse_body self (S spouse_num) h p []) as [err|b]; [done|].
    rewrite !bind_inr, bind_ok, IH.
    destruct (mapM _ _) as [err|blocks]; [done|].
    rewrite !bind_inr, bind_ok. cbn [concat]. by rewrite <- app_assoc.
Qed.

(** X10.  With partners, [get_consanguinity] prints the title and then one
    section per partner, in the order of the list: the section of the
    [i]-th partner, counted from 1, is what [spouse_body] prints for the
    number [i], which is the index its links carry, and depends on no
    other partner.  The query raises what the first failing section
    raises. *)
Theorem X10_get_consanguinity_one_section_per_partner :
  ∀ (self : ConsFormatter),
    spouse_pedigrees self ≠ [] →
    get_consanguinity self
    = (blocks ← mapM (λ x : nat * (string * Pedigree CA),
                        spouse_body self x.1 x.2.1 x.2.2 [])
                  (zip (seq 1 (length (spouse_pedigrees self)))
                     (spouse_pedigrees self));
       mret (join (consanguinity_title :: concat blocks))).
Proof.
  intros self Hne. unfold get_consanguinity.
  destruct (spouse_pedigrees self) as [|sp spouses]; [done|].
  rewrite spouses_loop_spec.
  destruct (mapM _ _) as [err|blocks]; [done|]. reflexivity.
Qed.

(** X11.  [get_consanguinity] reads the entry of position 1 of the
    dictionary that [determine_pedigree_collapse(1)] returns without
    testing for it: when the first partner is printed and the dictionary of
    their pedigree is not empty but has no entry for 1, the query raises
    [KeyError]. *)
Theorem X11_get_consanguinity_key_error :
  ∀ (self : ConsFormatter) (spouse_handle : string)
    (spouse_pedigree : Pedigree CA) (rest : list (string * Pedigree CA))
    (line : string),
    spouse_pedigrees self = (spouse_handle, spouse_pedigree) :: rest →
    partner_line self spouse_handle = ok line →
    has_pedigree_collapse spouse_pedigree = true →
    determine_pedigree_collapse spouse_pedigree (Some 1%positive) ≠ ∅ →
    determine_pedigree_collapse spouse_pedigree (Some 1%positive)
      !! 1%positive = None →
    get_consanguinity self = raise KeyError.
Proof.
  intros self h p rest line Hsp Hline Hhas Hne H1.
  unfold get_consanguinity. rewrite Hsp. cbn [spouses_loop].
  unfold spouse_body. unfold partner_line in Hline.
  destruct (get_person_from_handle (db self) h) as [err|spouse]; [done|].
  rewrite bind_inr in Hline. rewrite bind_inr, Hline.
  unfold ok at 1. rewrite bind_inr. rewrite Hhas. cbn [negb].
  rewrite decide_False by done. by rewrite H1.
Qed.

(** ** What each query reads of the formatter *)

Lemma common_ancestor_names_loop_db (self1 self2 : ConsFormatter)
    (pedigree : Pedigree CA) (l : list positive) :
  db self1 = db self2 →
  ∀ outstr,
    common_ancestor_names_loop self1 pedigree l outstr
    = common_ancestor_names_loop self2 pedigree l outstr.
Proof.
  intros Hdb. induction l as [|n l IH]; intros outstr; [done|].
  cbn [common_ancestor_names_loop].
  assert (common_ancestor_names_body self1 pedigree n outstr
          = common_ancestor_names_body self2 pedigree n outstr) as ->
    by (unfold common_ancestor_names_body; by rewrite Hdb).
  destruct (common_ancestor_names_body self2 pedigree n outstr)
    as [err|o]; [done|].
  rewrite !bind_inr. apply IH.
Qed.

Lemma collapse_groups_loop_db (self1 self2 : ConsFormatter) (gens : Z)
    (items : pydict (list positive) relationships) :
  db self1 = db self2 → pedigree self1 = pedigree self2 →
  ∀ outstr,
    collapse_groups_loop self1 gens items outstr
    = collapse_groups_loop self2 gens items outstr.
Proof.
  intros Hdb Hped.
  induction items as [|[primnums ancs] items IH]; intros outstr; [done|].
  cbn [collapse_groups_loop].
  assert (collapse_group_body self1 gens (primnums, ancs) outstr
          = collapse_group_body self2 gens (primnums, ancs) outstr) as ->.
  { unfold collapse_group_body, format_common_ancestor_names.
    rewrite Hped.
    by rewrite !(common_ancestor_names_loop_db self1 self2). }
  destruct (collapse_group_body self2 _ _ _) as [err|o]; [done|].
  rewrite !bind_inr. apply IH.
Qed.

Lemma collapse_loop_db (self1 self2 : ConsFormatter)
    (ped_collapse : gmap positive CA) (descnums : list positive) :
  db self1 = db self2 → pedigree self1 = pedigree self2 →
  ∀ count outstr,
    collapse_loop self1 ped_collapse descnums count outstr
    = collapse_loop self2 ped_collapse descnums count outstr.
Proof.
  intros Hdb Hped.
  induction descnums as [|d l IH]; intros count outstr; [done|].
  cbn [collapse_loop].
  destruct (decide (PED_COLLAPSE_LIMIT < count + 1)); [done|].
  assert (collapse_body self1 ped_collapse d outstr
          = collapse_body self2 ped_collapse d outstr) as ->.
  { unfold collapse_body. rewrite Hdb, Hped.
    destruct (ped_collapse !! d); [|done].
    cbn [of_option]; unfold ok; rewrite ?bind_inr.
    destruct (get_ancestor_by_number _ (d * 2)); [|done].
    cbn [of_option]; unfold ok; rewrite ?bind_inr.
    destruct (get_ancestor_by_number _ (d * 2 + 1)); [|done].
    cbn [of_option]; unfold ok; rewrite ?bind_inr.
    destruct (format_person _ _ _ _ _ _ _); [done|]. rewrite ?bind_inr.
    destruct (format_person _ _ _ _ _ _ _); [done|]. rewrite ?bind_inr.
    by rewrite (collapse_groups_loop_db self1 self2). }
  destruct (collapse_body self2 _ _ _) as [err|o]; [done|].
  rewrite !bind_inr. apply IH.
Qed.

Lemma spouse_groups_loop_db (self1 self2 : ConsFormatter) (spouse_num : nat)
    (spouse_pedigree : Pedigree CA) (spouse_gender : Gender)
    (items : pydict (list positive) relationships) :
  db self1 = db self2 → gender self1 = gender self2 →
  ∀ count outstr,
    spouse_groups_loop self1 spouse_num spouse_pedigree spouse_gender
      items count outstr
    = spouse_groups_loop self2 spouse_num spouse_pedigree spouse_gender
        items count outstr.
Proof.
  intros Hdb Hg.
  induction items as [|[primnums ancs] items IH]; intros count outstr;
    [done|].
  cbn [spouse_groups_loop].
  destruct (decide (PED_COLLAPSE_LIMIT < count + 1)); [done|].
  assert (spouse_group_body self1 spouse_num spouse_pedigree spouse_gender
            (primnums, ancs) outstr
          = spouse_group_body self2 spouse_num spouse_pedigree spouse_gender
              (primnums, ancs) outstr) as ->.
  { unfold spouse_group_body, format_common_ancestor_names. rewrite Hg.
    by rewrite !(common_ancestor_names_loop_db self1 self2). }
  destruct (spouse_group_body self2 _ _ _ _ _) as [err|o]; [done|].
  rewrite !bind_inr. apply IH.
Qed.

Lemma spouses_loop_db (self1 self2 : ConsFormatter)
    (spouses : list (string * Pedigree CA)) :
  db self1 = db self2 → gender self1 = gender self2 →
  ∀ spouse_num outstr,
    spouses_loop self1 spouses spouse_num outstr
    = spouses_loop self2 spouses spouse_num outstr.
Proof.
  intros Hdb Hg.
  induction spouses as [|[h p] spouses IH]; intros spouse_num outstr;
    [done|].
  cbn [spouses_loop].
  assert (spouse_body self1 (spouse_num + 1) h p outstr
          = spouse_body self2 (spouse_num + 1) h p outstr) as ->.
  { unfold spouse_body. rewrite Hdb.
    destruct (get_person_from_handle _ _); [done|]. rewrite !bind_inr.
    destruct (format_person _ _ _ _ _ _ _); [done|]. rewrite !bind_inr.
    destruct (negb _); [done|].
    destruct (decide _); [done|].
    destruct (_ !! 1%positive); [|done].
    cbn [of_option]; unfold ok; rewrite ?bind_inr.
    by apply spouse_groups_loop_db. }
  destruct (spouse_body self2 _ _ _ _) as [err|o]; [done|].
  rewrite !bind_inr. apply IH.
Qed.

(** X12.  Each query reads only its own part of the formatter.  Two
    formatters with the same database and the same pedigree of the active
    person print the same pedigree collapse, whoever their partners are.
    Two formatters with the same database, the same active person with the
    same gender, and the same partners print the same consanguinity,
    whatever the pedigree of the active person. *)
Theorem X12_queries_read_their_own_pedigrees :
  ∀ (self1 self2 : ConsFormatter),
    db self1 = db self2 →
    (pedigree self1 = pedigree self2 →
     get_pedigree_collapse self1 = get_pedigree_collapse self2)
    ∧ (spouse_pedigrees self1 = spouse_pedigrees self2 →
       person self1 = person self2 → gender self1 = gender self2 →
       get_consanguinity self1 = get_consanguinity self2).
Proof.
  intros self1 self2 Hdb. split.
  - intros Hped. unfold get_pedigree_collapse. rewrite Hped.
    destruct (negb _); [done|].
    by rewrite (collapse_loop_db self1 self2).
  - intros Hsp Hp Hg. unfold get_consanguinity. rewrite Hsp.
    destruct (spouse_pedigrees self2) as [|sp spouses].
    + unfold no_spouses_string. by rewrite Hdb, Hp.
    + by rewrite (spouses_loop_db self1 self2).
Qed.

(** X13.  Whatever a query prints starts with the title of its section. *)
Theorem X13_output_starts_with_title :
  ∀ (self : ConsFormatter),
    (∀ out, get_pedigree_collapse self = ok out →
            ∃ rest, out = collapse_title ++ rest)
    ∧ (∀ out, get_consanguinity self = ok out →
              ∃ rest, out = consanguinity_title ++ rest).
Proof.
  intros self. split; intros out.
  - unfold get_pedigree_collapse.
    destruct (negb _).
    + intros [= <-]. by eexists.
    + rewrite collapse_loop_for_each.
      rewrite (for_each_limit_spec _ _ _ (collapse_body_appends self _)).
      destruct (mapM _ _) as [err|blocks]; [done|].
      rewrite !bind_inr. intros [= <-].
      eexists. rewrite <- join_cons. reflexivity.
  - unfold get_consanguinity.
    destruct (spouse_pedigrees self) as [|sp spouses].
    + rewrite !str_add, str_init, !append_assoc. cbn [default].
      intros [= <-]. by eexists.
    + rewrite spouses_loop_spec.
      destruct (mapM _ _) as [err|blocks]; [done|].
      rewrite !bind_inr. intros [= <-].
      eexists. rewrite <- join_cons. reflexivity.
Qed.

(** ** Buffers as objects *)

(** X14.  A new buffer is an object no existing reference denotes, and it
    converts to its initial string, the empty string when none is given;
    making it changes no other buffer.  Adding to a buffer changes no
    other buffer either, and every reference to the buffer added to sees
    the addition. *)
Theorem X14_buffers_do_not_interfere :
  (∀ (initial : option string) (σ : SimpleStringBuffer.store),
      ∃ r σ',
        SimpleStringBuffer.__init__ initial σ = Some (r, σ')
        ∧ σ !! r = None
        ∧ SimpleStringBuffer.__str__ r σ'
          = Some (default EmptyString initial, σ')
        ∧ ∀ b, b ≠ r → σ' !! b = σ !! b)
  ∧ (∀ (b : SimpleStringBuffer.ref) (s : string)
       (σ : SimpleStringBuffer.store) (before : string),
        SimpleStringBuffer.__str__ b σ = Some (before, σ) →
        ∃ σ',
          SimpleStringBuffer.__add__ b s σ = Some (b, σ')
          ∧ SimpleStringBuffer.__str__ b σ' = Some (before ++ s, σ')
          ∧ ∀ b', b' ≠ b →
                  SimpleStringBuffer.__str__ b' σ'
                  = (λ x, (x.1, σ')) <$> SimpleStringBuffer.__str__ b' σ).
Proof.
  split.
  - intros initial σ. eexists _, _. split; [reflexivity|].
    split; [|split].
    + apply not_elem_of_dom. apply is_fresh.
    + unfold SimpleStringBuffer.__str__. rewrite lookup_insert_eq.
      by rewrite str_init.
    + intros b Hb. by rewrite lookup_insert_ne.
  - intros b s σ before. unfold SimpleStringBuffer.__str__,
      SimpleStringBuffer.__add__.
    destruct (σ !! b) as [c|] eqn:Hc; [|done]. intros [= <-].
    eexists. split; [reflexivity|]. split.
    + rewrite lookup_insert_eq. by rewrite str_add.
    + intros b' Hb'. rewrite lookup_insert_ne by done.
      by destruct (σ !! b').
Qed.

(** ** get_title *)

(** X15.  [get_title] prints the name of the active person in a span,
    never as a link, followed by the dates after a space when there are
    any; it fails only as the lookup of the active person fails.  For an
    empty handle the name is [MSG_UNKNOWN_NAME] and the database is not
    read. *)
Theorem X15_get_title_name_without_link :
  ∀ (self : ConsFormatter),
    let opening :=
      "<span size=" ++ DQ ++ "larger" ++ DQ ++ " weight=" ++ DQ
      ++ "ultrabold" ++ DQ ++ ">" in
    get_title self
    = if nonempty (person_handle self) then
        person ← get_person_from_handle (db self) (person_handle self);
        mret (opening ++ display_name person
              ++ (if nonempty (info_string (db self) person false)
                  then " " ++ info_string (db self) person false
                  else EmptyString)
              ++ "</span>")
      else mret (opening ++ MSG_UNKNOWN_NAME ++ "</span>").
Proof.
  intros self opening. unfold get_title. rewrite format_person_spec.
  unfold handle_truthy, SimpleStringBuffer.truthy, person_text.
  cbn [str_of_handle]. destruct (person_handle self) as [|a h].
  - cbn [nonempty]. by rewrite !append_assoc.
  - cbn [nonempty].
    destruct (get_person_from_handle _ _) as [err|p]; [done|].
    rewrite !bind_inr. f_equal. by rewrite !append_assoc.
Qed.

End ConsFormatter.

(** The pedigree object made of a tree of the engine answers for it. *)
Lemma pedigree_of_models_tree
    (order_ancestor_list :
       Engine.comm_anc → pydict (list positive) relationships)
    (tree : Engine.AncestorTree) :
  models_tree Engine.comm_anc (Engine.pedigree_of order_ancestor_list tree)
    tree.
Proof. by repeat split. Qed.

(** The generation of a position, as the specification defines it, is the
    integer logarithm: 0 at the root and one more than the generation of
    the parent elsewhere.  (What [int(log(n, 2))] computes in floating
    point is outside this development.) *)
Lemma generation_spec :
  Engine.generation 1 = 0
  ∧ (∀ n, n ≠ 1%positive →
          Engine.generation n = S (Engine.generation (Engine.parent n)))
  ∧ (∀ n, Z.of_nat (Engine.generation n) = Z.log2 (Z.pos n)).
Proof.
  assert (Hsize : ∀ p, Z.of_nat (Pos.size_nat p) = Z.pos (Pos.size p)).
  { induction p as [p IH|p IH|]; simpl Pos.size_nat; simpl Pos.size;
      rewrite ?Nat2Z.inj_succ, ?IH; lia. }
  split; [reflexivity|]. split.
  - intros n Hn. unfold Engine.generation.
    rewrite (size_parent n Hn). destruct (Engine.parent n); simpl; lia.
  - intros n. unfold Engine.generation.
    destruct n as [p|p|]; simpl Pos.size_nat; simpl Z.log2;
      rewrite <- ?Hsize; lia.
Qed.

(** * A concrete database and concrete pedigrees *)

(** The add-on runs untranslated; a person is a name and a gender, whoever
    is called [W] being a woman; nobody has events; the relationship
    calculator names a relationship by its two arguments. *)
Definition ex_tr (s : string) : string := s.

Definition ex_format_relationship (template rel : string) : string :=
  "Pedigree collapse at " ++ rel ++ ":".

Definition ex_Person : Type := string * Gender.

Definition ex_get_person_from_handle (_ : unit) (h : string)
  : result ex_Person :=
  ok (h, if decide (h = "W") then FEMALE else MALE).

Definition ex_no_event (_ : unit) (_ : ex_Person) : option Empty_set := None.

Definition ex_of_event {A} (e : Empty_set) : A := match e with end.

Definition ex_relfun (a b : Z) : string :=
  "rel(" ++ pretty a ++ "," ++ pretty b ++ ")".

Definition ex_int_log_2 (n : positive) : Z := Z.log2 (Z.pos n).

Definition ex_format_person :=
  format_person ex_tr unit ex_Person Empty_set ex_get_person_from_handle fst
    ex_no_event ex_no_event ex_of_event ex_of_event "*" "~" "+" "[]".

Definition ex_get_pedigree_collapse {CA} :=
  get_pedigree_collapse ex_tr ex_format_relationship unit ex_Person Empty_set
    ex_get_person_from_handle fst ex_no_event ex_no_event
    ex_of_event ex_of_event ex_relfun ex_int_log_2 "*" "~" "+" "[]" CA.

Definition ex_collapse_body {CA} :=
  collapse_body ex_tr ex_format_relationship unit ex_Person Empty_set
    ex_get_person_from_handle fst ex_no_event ex_no_event
    ex_of_event ex_of_event ex_relfun ex_int_log_2 "*" "~" "+" "[]" CA.

Definition ex_collapse_group_body {CA} :=
  collapse_group_body ex_tr unit ex_Person Empty_set
    ex_get_person_from_handle fst ex_no_event ex_no_event
    ex_of_event ex_of_event ex_relfun "*" "~" "+" "[]" CA.

Definition ex_get_consanguinity {CA} :=
  get_consanguinity ex_tr unit ex_Person Empty_set
    ex_get_person_from_handle snd fst ex_no_event ex_no_event
    ex_of_event ex_of_event ex_of_event (λ s, s) ex_relfun
    "*" "~" "+" "[]" CA.

(** The link to a person without dates. *)
Definition ex_link (h : string) : string :=
  "<a href=" ++ DQ ++ "P " ++ h ++ DQ ++ ">" ++ h ++ "</a>".

(** The groups of every common descendant of the pedigrees below: one
    group, realised through the ancestors 4 and 5, with one relationship
    between generations 3 and 2. *)
Definition ex_ancs : relationships := [((3, 2)%Z, [[[8]; [10]]]%Z)].

(** A pedigree with collapse at the positions 1 to [n], in which every
    position holds the individual called by its number. *)
Definition ex_pedigree (n : nat) : Pedigree unit :=
  {| has_pedigree_collapse := true;
     determine_pedigree_collapse :=
       λ _, list_to_map ((λ i, (Pos.of_nat i, tt)) <$> seq 1 n);
     get_ancestor_by_number :=
       λ n, Some {| get_person_handle := Some ("I" ++ pretty n) |};
     order_ancestor_list := λ _, [([4; 5]%positive, ex_ancs)] |}.

(** The formatter of an active person of gender [g] with that pedigree. *)
Definition ex_self (g : Gender) (n : nat) : ConsFormatter unit ex_Person unit :=
  {| db := tt; person_handle := "W"; pedigree := ex_pedigree n;
     spouse_pedigrees := []; person := ("W", g); gender := g |}.

(** The limit a caller would like to impose on a query. *)
Definition ex_caller_limit : nat := 2.

(** A record store.  [R] is the child of [F] and [M], who are brother and
    sister, children of [G] and [H].  [B] is the child of [P] and [Q], of
    whom nothing else is known. *)
Definition ex_getParents (s : string) : option string * option string :=
  if decide (s = "R") then (Some "F", Some "M")
  else if decide (s = "F") then (Some "G", Some "H")
  else if decide (s = "M") then (Some "G", Some "H")
  else if decide (s = "B") then (Some "P", Some "Q")
  else (None, None).

Definition ex_order_ancestor_list (_ : Engine.comm_anc)
  : pydict (list positive) relationships :=
  [([4; 5]%positive, ex_ancs)].

(** The formatter of [R] with the spouse [B]: the joint tree holds [G] and
    [H] twice each, in the ancestry of [R] alone. *)
Definition ex_couple : ConsFormatter unit ex_Person Engine.comm_anc :=
  {| db := tt; person_handle := "R";
     pedigree :=
       Engine.pedigree_of ex_order_ancestor_list
         (Engine.build ex_getParents "R" 3);
     spouse_pedigrees :=
       [("B", Engine.pedigree_of ex_order_ancestor_list
                (Engine.build_joint ex_getParents "R" "B" 3))];
     person := ("R", MALE); gender := MALE |}.

(** The entry of the common descendant [descnum] of a pedigree
    [ex_pedigree], as the self-collapse query prints it. *)
Definition ex_entry (descnum : positive) : string :=
  "<b>Pedigree collapse at "
  ++ ex_relfun (ex_int_log_2 descnum + 1) 0 ++ ":</b>" ++ NL
  ++ TAB ++ ex_link ("I" ++ pretty (descnum * 2)%positive) ++ NL
  ++ TAB ++ ex_link ("I" ++ pretty (descnum * 2 + 1)%positive) ++ NL
  ++ TAB ++ "<b>Relationship:</b> "
  ++ "<a href=" ++ DQ ++ "N 0 8,10 " ++ DQ ++ ">"
  ++ ex_relfun (3 - (ex_int_log_2 descnum + 1))
       (2 - (ex_int_log_2 descnum + 1))
  ++ "</a>" ++ NL
  ++ TAB ++ "<b>Common ancestors:</b>" ++ NL
  ++ TAB ++ TAB ++ ex_link "I4" ++ NL
  ++ TAB ++ TAB ++ ex_link "I5" ++ NL
  ++ NL.

(** A deeper record store.  [R] is the child of [F] and [M], who are
    brother and sister, children of [A] and [B]; everybody else has a
    father and a mother of their own, called by their name followed by
    [f] and by [m].  Over four generations the tree of [R] holds fourteen
    individuals twice: [A] and [B], their four parents and their eight
    grandparents. *)
Definition ex_deep_getParents (s : string) : option string * option string :=
  if decide (s = "R") then (Some "F", Some "M")
  else if decide (s = "F") then (Some "A", Some "B")
  else if decide (s = "M") then (Some "A", Some "B")
  else (Some (s ++ "f"), Some (s ++ "m")).

Definition ex_deep_tree : Engine.AncestorTree :=
  Engine.build ex_deep_getParents "R" 4.

(** The formatter of [R] with that tree. *)
Definition ex_deep : ConsFormatter unit ex_Person Engine.comm_anc :=
  {| db := tt; person_handle := "R";
     pedigree := Engine.pedigree_of ex_order_ancestor_list ex_deep_tree;
     spouse_pedigrees := []; person := ("R", MALE); gender := MALE |}.

(** * The claims at concrete inputs *)

(** C9 at [None], with the dates asked for. *)
Lemma C9_witness_none_with_dates :
  handle_truthy None = false
  ∧ ex_format_person tt None "[" "]" true true false
    = ok ("[" ++ "<a href=" ++ DQ ++ "P None" ++ DQ ++ ">(unknown)</a>"
          ++ "]").
Proof.
  split; [reflexivity|].
  exact (C9_format_person_absent_reference ex_tr unit ex_Person Empty_set
           ex_get_person_from_handle fst ex_no_event ex_no_event
           ex_of_event ex_of_event "*" "~" "+" "[]"
           tt None "[" "]" true true false eq_refl).
Defined.

(** C6 at a pedigree with collapse at eleven positions: the entries of
    the positions 1 to 10 in this order, then the line for the rest. *)
Lemma C6_witness_eleven_collapse_points :
  has_pedigree_collapse (pedigree _ _ _ (ex_self MALE 11)) = true
  ∧ size (determine_pedigree_collapse (ex_pedigree 11) None) = 11
  ∧ ex_get_pedigree_collapse (ex_self MALE 11)
    = ok (join (collapse_title ex_tr
                :: (ex_entry <$> [1; 2; 3; 4; 5; 6; 7; 8; 9; 10]%positive)
                ++ [more_ped_collapse ex_tr])%list).
Proof.
  split; [reflexivity|]. split; [vm_compute; reflexivity|].
  destruct (C6_truncation_in_ascending_order ex_tr ex_format_relationship
              unit ex_Person Empty_set ex_get_person_from_handle fst
              ex_no_event ex_no_event ex_of_event ex_of_event ex_relfun
              ex_int_log_2 "*" "~" "+" "[]" unit (ex_self MALE 11) eq_refl)
    as (Heq & _).
  unfold ex_get_pedigree_collapse. rewrite Heq.
  vm_compute. reflexivity.
Defined.

(** C6 as stated fails: the tree of [R] has fourteen duplicate groups,
    more than the limit of ten, and all of them converge at the root.  The
    query prints the one entry of the root and no line for a rest. *)
Lemma C6_counterexample_fourteen_duplicate_groups :
  length (Engine.findDuplicates ex_deep_tree) = 14
  ∧ PED_COLLAPSE_LIMIT < length (Engine.findDuplicates ex_deep_tree)
  ∧ sorted_keys (Engine.determine_pedigree_collapse ex_deep_tree None)
    = [1%positive]
  ∧ ex_get_pedigree_collapse ex_deep
    = ok (join [collapse_title ex_tr;
                "<b>Pedigree collapse at rel(1,0):</b>" ++ NL;
                TAB ++ ex_link "F" ++ NL;
                TAB ++ ex_link "M" ++ NL;
                TAB ++ "<b>Relationship:</b> "
                ++ "<a href=" ++ DQ ++ "N 0 8,10 " ++ DQ ++ ">"
                ++ ex_relfun 2 1 ++ "</a>" ++ NL;
                TAB ++ "<b>Common ancestors:</b>" ++ NL
                ++ TAB ++ TAB ++ ex_link "A" ++ NL
                ++ TAB ++ TAB ++ ex_link "B" ++ NL;
                NL]).
Proof.
  split; [vm_compute; reflexivity|].
  split; [vm_compute; lia|].
  split; [vm_compute; reflexivity|].
  vm_compute. reflexivity.
Qed.

(** C3 at a group with one primary ancestor number: the group as the
    self-collapse query prints it, with the mark after the name of the
    relationship, inside the link. *)
Lemma C3_witness_single_primary_number :
  NoDup (keys ex_ancs)
  ∧ ex_collapse_group_body (ex_self MALE 1) 1 ([4%positive], ex_ancs) []
    = ok [TAB ++ "<b>Relationship:</b> "
          ++ "<a href=" ++ DQ ++ "N 0 8,10 " ++ DQ ++ ">"
          ++ "rel(2,1), Â½" ++ "</a>" ++ NL;
          TAB ++ "<b>" ++ DQ ++ "Common ancestor:</b>" ++ NL
          ++ TAB ++ TAB ++ ex_link "I4" ++ NL]
  ∧ relationship_text ex_relfun (bool_decide (length [4%positive] = 1)) 1
      MALE (3, 2)%Z 1
    = "rel(2,1)," ++ HALF_MARK
  ∧ bytes HALF_MARK = [32; 195; 130; 194; 189].
Proof.
  assert (Hnd : NoDup (keys ex_ancs)) by apply NoDup_singleton.
  split; [exact Hnd|].
  destruct (C3_half_iff_one_primary_number ex_tr unit ex_Person Empty_set
              ex_get_person_from_handle fst ex_no_event ex_no_event
              ex_of_event ex_of_event ex_relfun "*" "~" "+" "[]" unit
              (ex_self MALE 1) 1%Z 0 (ex_pedigree 1) FEMALE
              [4%positive] ex_ancs [] Hnd)
    as (Hbody & _ & Htext & Hbytes & _).
  split; [|split; [exact (Htext 1%Z MALE (3, 2)%Z 1)|exact Hbytes]].
  unfold ex_collapse_group_body. rewrite Hbody.
  vm_compute. reflexivity.
Defined.

(** C7 at the tree of [R], whose parents are brother and sister: the
    collapse is at the root, and both parents of the root are found. *)
Lemma C7_witness_siblings :
  is_Some (determine_pedigree_collapse
             (Engine.pedigree_of ex_order_ancestor_list
                (Engine.build ex_getParents "R" 3)) None !! 1%positive)
  ∧ ∃ father mother,
      get_ancestor_by_number
        (Engine.pedigree_of ex_order_ancestor_list
           (Engine.build ex_getParents "R" 3)) (1 * 2)
      = Some {| get_person_handle := Some father |}
      ∧ get_ancestor_by_number
          (Engine.pedigree_of ex_order_ancestor_list
             (Engine.build ex_getParents "R" 3)) (1 * 2 + 1)
        = Some {| get_person_handle := Some mother |}.
Proof.
  assert (H : is_Some (determine_pedigree_collapse
             (Engine.pedigree_of ex_order_ancestor_list
                (Engine.build ex_getParents "R" 3)) None !! 1%positive))
    by (vm_compute; eexists; reflexivity).
  split; [exact H|].
  exact (C7_collapse_couple_lookup_succeeds ex_getParents
           ex_order_ancestor_list "R" 3 1%positive H).
Defined.

Lemma ex_line_R (r : string) :
  line_of ex_getParents "R" r → r ∈ ["R"; "F"; "M"; "G"; "H"].
Proof.
  induction 1 as [|r father _ IH Hp|r mother _ IH Hp]; [by left| |];
    apply list_elem_of_In in IH; simpl in IH;
    destruct IH as [<-|[<-|[<-|[<-|[<-|[]]]]]];
    vm_compute in Hp; try discriminate Hp;
    injection Hp as <-; apply list_elem_of_In; simpl; auto 10.
Qed.

Lemma ex_line_B (r : string) :
  line_of ex_getParents "B" r → r ∈ ["B"; "P"; "Q"].
Proof.
  induction 1 as [|r father _ IH Hp|r mother _ IH Hp]; [by left| |];
    apply list_elem_of_In in IH; simpl in IH;
    destruct IH as [<-|[<-|[<-|[]]]];
    vm_compute in Hp; try discriminate Hp;
    injection Hp as <-; apply list_elem_of_In; simpl; auto 10.
Qed.

Lemma ex_no_shared_ancestor : no_shared_ancestor ex_getParents "R" "B".
Proof.
  intros r HR HB. apply ex_line_R in HR. apply ex_line_B in HB.
  apply list_elem_of_In in HR, HB. simpl in HR, HB.
  destruct HR as [<-|[<-|[<-|[<-|[<-|[]]]]]];
    destruct HB as [HB|[HB|[HB|[]]]]; discriminate HB.
Qed.

(** C1 at the couple of [R] and [B]: the joint tree has pedigree collapse,
    in the ancestry of [R], and the two share no ancestor. *)
Lemma C1_witness_collapse_on_one_side :
  no_shared_ancestor ex_getParents "R" "B"
  ∧ Forall (λ sp, has_pedigree_collapse sp.2 = true)
      (spouse_pedigrees _ _ _ ex_couple)
  ∧ ex_get_consanguinity ex_couple
    = ok (join [consanguinity_title ex_tr;
                NL ++ "<b>Partner:</b> " ++ ex_link "B" ++ NL;
                no_common_ancs ex_tr]).
Proof.
  split; [exact ex_no_shared_ancestor|].
  split; [repeat constructor|].
  etrans.
  - apply (C1_no_shared_ancestor_no_common_ancestors ex_tr unit ex_Person
             Empty_set ex_get_person_from_handle snd fst ex_no_event
             ex_no_event ex_of_event ex_of_event ex_of_event (λ s, s)
             ex_relfun "*" "~" "+" "[]" Engine.comm_anc ex_getParents
             ex_couple).
    + discriminate.
    + repeat constructor. exists "R", "B", 3. split.
      * apply pedigree_of_models_tree.
      * exact ex_no_shared_ancestor.
  - vm_compute. reflexivity.
Defined.

(** C2 as stated fails: no argument of the query carries a limit.  For a
    caller whose limit is 2, the query on a pedigree with collapse at three
    positions prints the three blocks and no line for a rest. *)
Lemma C2_counterexample_no_limit_argument :
  ∃ blocks,
    mapM (λ descnum,
            ex_collapse_body (ex_self MALE 3)
              (determine_pedigree_collapse (ex_pedigree 3) None) descnum [])
      [1; 2; 3]%positive
    = ok blocks
    ∧ ex_get_pedigree_collapse (ex_self MALE 3)
      = ok (join (collapse_title ex_tr :: concat blocks))
    ∧ length blocks = 3
    ∧ ex_caller_limit < length blocks.
Proof.
  eexists. split; [vm_compute; reflexivity|].
  split; [vm_compute; reflexivity|].
  split; [reflexivity|]. vm_compute. lia.
Qed.

(** C4 as stated fails for a self-collapse query: the active person is a
    woman, so the claim has the removes 2 and 1 presented as (1, 2), and
    the query prints the relationship of (2, 1). *)
Lemma C4_counterexample_female_self_collapse :
  gender _ _ _ (ex_self FEMALE 1) = FEMALE
  ∧ presented_first FEMALE (3 - 1) (2 - 1) = (1, 2)%Z
  ∧ ex_relfun 2 1 ≠ ex_relfun 1 2
  ∧ ex_get_pedigree_collapse (ex_self FEMALE 1)
    = ok (join [collapse_title ex_tr;
                "<b>Pedigree collapse at rel(1,0):</b>" ++ NL;
                TAB ++ ex_link "I2" ++ NL;
                TAB ++ ex_link "I3" ++ NL;
                TAB ++ "<b>Relationship:</b> "
                ++ "<a href=" ++ DQ ++ "N 0 8,10 " ++ DQ ++ ">"
                ++ ex_relfun (3 - 1) (2 - 1) ++ "</a>" ++ NL;
                TAB ++ "<b>Common ancestors:</b>" ++ NL
                ++ TAB ++ TAB ++ ex_link "I4" ++ NL
                ++ TAB ++ TAB ++ ex_link "I5" ++ NL;
                NL]).
Proof.
  split; [reflexivity|]. split; [reflexivity|].
  split; [vm_compute; discriminate|].
  vm_compute. reflexivity.
Qed.

(** * The further properties at concrete inputs *)

(** A pedigree without collapse, which knows no ancestor. *)
Definition ex_pedigree_none : Pedigree unit :=
  {| has_pedigree_collapse := false;
     determine_pedigree_collapse := λ _, ∅;
     get_ancestor_by_number := λ _, None;
     order_ancestor_list := λ _, [] |}.

(** A pedigree that reports collapse and whose dictionary, asked for
    position 1, holds position 2 only. *)
Definition ex_pedigree_off : Pedigree unit :=
  {| has_pedigree_collapse := true;
     determine_pedigree_collapse := λ _, {[ 2%positive := tt ]};
     get_ancestor_by_number := λ _, None;
     order_ancestor_list := λ _, [] |}.

(** The active person [W] with the partner [B]. *)
Definition ex_self_partner (pedigree spouse_pedigree : Pedigree unit)
  : ConsFormatter unit ex_Person unit :=
  {| db := tt; person_handle := "W"; pedigree := pedigree;
     spouse_pedigrees := [("B", spouse_pedigree)];
     person := ("W", FEMALE); gender := FEMALE |}.

Definition ex_anc_rels_body :=
  anc_rels_body ex_relfun.

(** X5 at a pedigree without collapse and without ancestors. *)
Lemma X5_witness_no_collapse :
  ex_get_pedigree_collapse (ex_self_partner ex_pedigree_none ex_pedigree_off)
  = ok (collapse_title ex_tr ++ "<i>No pedigree collapse found.</i>"
        ++ NL ++ NL).
Proof.
  apply (X5_get_pedigree_collapse_without_collapse ex_tr
           ex_format_relationship unit ex_Person Empty_set
           ex_get_person_from_handle fst ex_no_event ex_no_event
           ex_of_event ex_of_event ex_relfun ex_int_log_2
           "*" "~" "+" "[]" unit
           (ex_self_partner ex_pedigree_none ex_pedigree_off)).
  reflexivity.
Defined.

(** X6 at an active person without partners and without death event. *)
Lemma X6_witness_no_partners :
  ex_get_consanguinity (ex_self MALE 1)
  = ok (consanguinity_title ex_tr ++ NL ++ "<i>No partners.</i>" ++ NL).
Proof.
  exact (X6_get_consanguinity_without_spouses ex_tr unit ex_Person
           Empty_set ex_get_person_from_handle snd fst ex_no_event
           ex_no_event ex_of_event ex_of_event ex_of_event (λ s, s)
           ex_relfun "*" "~" "+" "[]" unit (ex_self MALE 1) eq_refl).
Defined.

(** X9 at a relationship with two paths. *)
Lemma X9_witness_two_paths :
  ∃ text,
    ex_anc_rels_body 3 [((3, 2)%Z, [[[8]; [10]]; [[9]; [11; 23]]]%Z)] false
      EmptyString 1 MALE (3, 2)%Z TAB []
    = ok [TAB ++ "<a href=" ++ DQ ++ "N 3 8,10 9,11,23 " ++ DQ ++ ">"
          ++ text ++ "</a>" ++ NL].
Proof.
  exact (X9_link_target_lists_every_path ex_relfun 3
           [((3, 2)%Z, [[[8]; [10]]; [[9]; [11; 23]]]%Z)] false EmptyString
           1 MALE (3, 2)%Z [[[8]; [10]]; [[9]; [11; 23]]]%Z TAB []
           eq_refl).
Defined.

(** X10 at the couple of [R] and [B]. *)
Lemma X10_witness_one_partner :
  ex_get_consanguinity ex_couple
  = ok (join [consanguinity_title ex_tr;
              NL ++ "<b>Partner:</b> " ++ ex_link "B" ++ NL;
              no_common_ancs ex_tr]).
Proof.
  etrans.
  - apply (X10_get_consanguinity_one_section_per_partner ex_tr unit
             ex_Person Empty_set ex_get_person_from_handle snd fst
             ex_no_event ex_no_event ex_of_event ex_of_event ex_of_event
             (λ s, s) ex_relfun "*" "~" "+" "[]" Engine.comm_anc ex_couple).
    discriminate.
  - vm_compute. reflexivity.
Defined.

(** X11 at a partner whose pedigree answers for position 2 only. *)
Lemma X11_witness_missing_entry :
  ex_get_consanguinity (ex_self_partner ex_pedigree_none ex_pedigree_off)
  = raise KeyError.
Proof.
  apply (X11_get_consanguinity_key_error ex_tr unit ex_Person Empty_set
           ex_get_person_from_handle snd fst ex_no_event ex_no_event
           ex_of_event ex_of_event ex_of_event (λ s, s) ex_relfun
           "*" "~" "+" "[]" unit
           (ex_self_partner ex_pedigree_none ex_pedigree_off)
           "B" ex_pedigree_off []
           (NL ++ "<b>Partner:</b> " ++ ex_link "B" ++ NL)).
  - reflexivity.
  - vm_compute. reflexivity.
  - reflexivity.
  - intros H. apply (f_equal (λ m : gmap positive unit, m !! 2%positive)) in H.
    vm_compute in H. discriminate H.
  - vm_compute. reflexivity.
Defined.

(** X12 at two formatters with the same pedigree, one with a partner and
    one without, of different genders. *)
Lemma X12_witness_partner_ignored :
  ex_get_pedigree_collapse (ex_self_partner (ex_pedigree 1) ex_pedigree_off)
  = ex_get_pedigree_collapse (ex_self MALE 1).
Proof.
  apply (X12_queries_read_their_own_pedigrees ex_tr ex_format_relationship
           unit ex_Person Empty_set ex_get_person_from_handle snd fst
           ex_no_event ex_no_event ex_of_event ex_of_event ex_of_event
           (λ s, s) ex_relfun ex_int_log_2 "*" "~" "+" "[]" unit
           (ex_self_partner (ex_pedigree 1) ex_pedigree_off)
           (ex_self MALE 1) eq_refl).
  reflexivity.
Defined.
